(** * A genetic algorithm for the single-row layout of fair stands

    Shallow embedding of [app.py]: the objective function
    ([distancia], [evaluar_solucion]), the genetic operators
    ([inicializar_poblacion], [seleccion_torneo], [cruce], [mutacion]) and
    the generational loop of [main].

    Modelling choices.
    - Station indices, positions and list lengths are [nat]; the station
      count, the sizes and the preferences are Python ints, hence [Z].
    - Sizes and preferences are read with [int(...)]: they are unbounded
      ints.  The evaluator mixes them with binary64 floats ([Lxi / 2], the
      running sums, the products).  [distancia_doble] and
      [evaluar_solucion_doble] follow the source in that arithmetic, with
      its rounding, its infinities and NaN, and the [OverflowError] of an
      int too large for a float.  [distancia] and [evaluar_solucion] compute
      the same expressions with exact rationals [Q].  Every float the
      evaluator builds is half an integer, so the two evaluators agree
      ([evaluar_solucion_doble_exacta]) while the magnitudes stay in the
      range [en_rango], below 2^53; outside of it they differ.  The
      statements about the values of the objective function are made on the
      evaluator in doubles; the generational loop compares fitness values
      through the exact one.
    - Candidates are Python list objects.  They live in a heap and the
      population holds references, so that copying ([l[:]]) and in-place
      mutation are told apart.
    - The pseudo-random generator is an oracle: a tape of draws that the
      calls to [random.sample], [random.randint] and [random.random]
      consume in program order.  A draw that the library call could not
      have produced makes the run [Invalid].
    - Python exceptions are the [Raise] outcome. *)

From Stdlib Require Import QArith Qround.
From Stdlib Require SpecFloat.
From stdpp Require Import base option list numbers.

(** ** Python values and built-ins *)

Definition Qltb (a b : Q) : bool := negb (Qle_bool b a).

(** [int(x)] on a float truncates towards zero. *)
Definition int (q : Q) : Z := Z.quot (Qnum q) (Z.pos (Qden q)).

(** [range(a, b)] for non-negative bounds. *)
Definition range (a b : nat) : list nat := seq a (b - a).

(** [sum(xs)] starts from 0 and adds from the left. *)
Definition sum (l : list Z) : Z := foldl Z.add 0%Z l.

(** A [for] loop over [l] that threads an accumulator and stops at the first
    failing iteration. *)
Fixpoint for_acc {A S} (l : list A) (f : S → A → option S) (acc : S) : option S :=
  match l with
  | [] => Some acc
  | x :: l' => acc' ← f acc x; for_acc l' f acc'
  end.

(** ** The objective function in exact arithmetic (pure; [None] is
    [IndexError]) *)

Definition distancia (i j : nat) (orden : list nat) (tamanos : list Z) : option Q :=
  oi ← orden !! i; Lxi ← tamanos !! oi;
  oj ← orden !! j; Lxj ← tamanos !! oj;
  medio ← mapM (λ k, ok ← orden !! k; tamanos !! ok) (range (i + 1) j);
  let suma_intermedia := sum medio in
  Some (inject_Z Lxi / 2 + inject_Z suma_intermedia + inject_Z Lxj / 2)%Q.

Definition evaluar_solucion (orden : list nat) (preferencias : list (list Z))
    (tamanos : list Z) : option Q :=
  let n := length orden in
  for_acc (range 0 (n - 1)) (λ esfuerzo i,
    for_acc (range (i + 1) n) (λ esfuerzo j,
      d ← distancia i j orden tamanos;
      fila ← preferencias !! i;
      p ← fila !! j;
      Some (esfuerzo + d * inject_Z p)%Q) esfuerzo) 0%Q.

(** ** Heap, random tape and the monad of runs *)

Inductive exn := ValueError | IndexError | NameError.

Inductive draw :=
  | DSample (l : list nat)   (* a result of random.sample *)
  | DInt (z : Z)             (* a result of random.randint *)
  | DUnit (q : Q).           (* a result of random.random *)

Definition loc := nat.

Record state := State { heap : list (list nat); tape : list draw }.

Inductive outcome (A : Type) :=
  | Ok (a : A) (s : state)
  | Raise (e : exn)
  | Invalid
  | OutOfFuel.
Arguments Ok {A} a s.
Arguments Raise {A} e.
Arguments Invalid {A}.
Arguments OutOfFuel {A}.

Definition M (A : Type) : Type := state → outcome A.

#[global] Instance M_ret : MRet M := λ A a s, Ok a s.
#[global] Instance M_bind : MBind M := λ A B f m s,
  match m s with
  | Ok a s' => f a s'
  | Raise e => Raise e
  | Invalid => Invalid
  | OutOfFuel => OutOfFuel
  end.

Definition raise {A} (e : exn) : M A := λ _, Raise e.
Definition invalid {A} : M A := λ _, Invalid.
Definition out_of_fuel {A} : M A := λ _, OutOfFuel.

(** [l[i]] and the lifting of a pure computation that can only fail with
    [IndexError]. *)
Definition try {A} (o : option A) : M A :=
  match o with Some a => mret a | None => raise IndexError end.
Definition item {A} (l : list A) (i : nat) : M A := try (l !! i).

Definition deref (r : loc) : M (list nat) := λ s,
  match heap s !! r with Some l => Ok l s | None => Invalid end.
Definition alloc (l : list nat) : M loc := λ s,
  Ok (length (heap s)) (State (heap s ++ [l]) (tape s)).
Definition store (r : loc) (l : list nat) : M unit := λ s,
  Ok () (State (<[r:=l]> (heap s)) (tape s)).

(** [l[:]]: a new list object with the same items. *)
Definition copy (r : loc) : M loc := l ← deref r; alloc l.

Definition next_draw : M draw := λ s,
  match tape s with
  | d :: t => Ok d (State (heap s) t)
  | [] => Invalid
  end.

(** [random.sample(range(n), k)]: [k] distinct elements of [range(n)];
    [ValueError] when the sample is larger than the population. *)
Definition random_sample (n k : nat) : M (list nat) :=
  if decide (n < k) then raise ValueError else
  d ← next_draw;
  match d with
  | DSample l =>
      if decide (length l = k ∧ NoDup l ∧ Forall (λ x, x < n) l)
      then mret l else invalid
  | _ => invalid
  end.

(** [random.randint(a, b)]: an integer in [a..b], both ends included;
    [ValueError] on an empty range. *)
Definition random_randint (a b : Z) : M Z :=
  if decide (b < a)%Z then raise ValueError else
  d ← next_draw;
  match d with
  | DInt z => if decide (a ≤ z ≤ b)%Z then mret z else invalid
  | _ => invalid
  end.

(** [random.random()]: a float in [0, 1). *)
Definition random_random : M Q :=
  d ← next_draw;
  match d with
  | DUnit q => if Qle_bool 0 q && Qltb q 1 then mret q else invalid
  | _ => invalid
  end.

(** [min(l, key=...)]: the first element whose key is least; [ValueError]
    on an empty sequence. *)
Fixpoint min_key_from (l : list nat) (key : nat → option Q) (best : nat) (kbest : Q)
    : M nat :=
  match l with
  | [] => mret best
  | x :: l' =>
      kx ← try (key x);
      if Qltb kx kbest then min_key_from l' key x kx
      else min_key_from l' key best kbest
  end.

Definition min_key (l : list nat) (key : nat → option Q) : M nat :=
  match l with
  | [] => raise ValueError
  | x :: l' => kx ← try (key x); min_key_from l' key x kx
  end.

(** [numpy.argmin] on a flat list: the index of the first least entry;
    [ValueError] on an empty list. *)
Fixpoint argmin_from (l : list Q) (i : nat) (best : nat) (vbest : Q) : nat :=
  match l with
  | [] => best
  | v :: l' =>
      if Qltb v vbest then argmin_from l' (S i) i v
      else argmin_from l' (S i) best vbest
  end.

Definition argmin (l : list Q) : M nat :=
  match l with
  | [] => raise ValueError
  | v :: l' => mret (argmin_from l' 1 0 v)
  end.

(** ** Constants *)

Definition NUM_GENERACIONES : nat := 100.
(* The literals 0.4 and 0.3 are not exact doubles, but a draw k/2^53 is
   below the double exactly when it is below the decimal fraction. *)
Definition PROBABILIDAD_CRUCE : Q := 4 # 10.
Definition PROBABILIDAD_MUTACION : Q := 3 # 10.

(** ** Genetic operators *)

Definition inicializar_poblacion (num_puestos : Z) : M (list loc) :=
  let porcentaje_tamano_poblacion := (5 # 10)%Q in
  let tamano_poblacion := int (inject_Z num_puestos * porcentaje_tamano_poblacion) in
  mapM (λ _, alloc (range 0 (Z.to_nat num_puestos)))
       (range 0 (Z.to_nat tamano_poblacion)).

Definition seleccion_torneo (poblacion : list loc) (fitness : list Q)
    (tamano_torneo : nat) : M loc :=
  torneo ← random_sample (length poblacion) tamano_torneo;
  ganador ← min_key torneo (λ x, fitness !! x);
  r ← item poblacion ganador;
  copy r.

(** One child of the crossover, once the point is known. *)
Definition hijo_de (punto_cruce : nat) (padre1 padre2 : list nat) : list nat :=
  take punto_cruce padre1
    ++ filter (λ gen, gen ∉ take punto_cruce padre1) padre2.

Definition cruce (padre1 padre2 : loc) : M (loc * loc) :=
  p1 ← deref padre1;
  p2 ← deref padre2;
  punto_cruce ← random_randint 1 (Z.of_nat (length p1) - 1);
  hijo1 ← alloc (hijo_de (Z.to_nat punto_cruce) p1 p2);
  hijo2 ← alloc (hijo_de (Z.to_nat punto_cruce) p2 p1);
  mret (hijo1, hijo2).

(** The tuple assignment reads both items, then writes [indice_1], then
    [indice_2]. *)
Definition intercambiar (indice_1 indice_2 : nat) (l : list nat) : option (list nat) :=
  v2 ← l !! indice_2;
  v1 ← l !! indice_1;
  Some (<[indice_2:=v1]> (<[indice_1:=v2]> l)).

Definition mutacion (individuo : loc) : M loc :=
  l ← deref individuo;
  indices ← random_sample (length l) 2;
  match indices with
  | [indice_1; indice_2] =>
      l' ← try (intercambiar indice_1 indice_2 l);
      _ ← store individuo l';
      mret individuo
  | _ => invalid
  end.

(** ** The generational loop of [main] *)

Section Instancia.
Variable preferencias : list (list Z).
Variable tamanos : list Z.

Definition evaluar (individuo : loc) : M Q :=
  orden ← deref individuo;
  try (evaluar_solucion orden preferencias tamanos).

(** The [while] loop that fills [nueva_poblacion]. *)
Fixpoint reproducir (fuel : nat) (poblacion : list loc) (fitness : list Q)
    (nueva_poblacion : list loc) : M (list loc) :=
  if decide (length nueva_poblacion < length poblacion) then
    match fuel with
    | 0 => out_of_fuel
    | S fuel' =>
        padre1 ← seleccion_torneo poblacion fitness 3;
        padre2 ← seleccion_torneo poblacion fitness 3;
        u ← random_random;
        '(hijo1, hijo2) ←
          (if Qltb u PROBABILIDAD_CRUCE then cruce padre1 padre2
           else h1 ← copy padre1; h2 ← copy padre2; mret (h1, h2));
        u1 ← random_random;
        n1 ← (if Qltb u1 PROBABILIDAD_MUTACION then mutacion hijo1 else mret hijo1);
        u2 ← random_random;
        n2 ← (if Qltb u2 PROBABILIDAD_MUTACION then mutacion hijo2 else mret hijo2);
        reproducir fuel' poblacion fitness (nueva_poblacion ++ [n1; n2])
    end
  else mret nueva_poblacion.

(** One pass of the [for] loop: the fitness of the current population,
    then its replacement. *)
Definition generacion (poblacion : list loc) : M (list loc * list Q) :=
  fitness ← mapM evaluar poblacion;
  nueva_poblacion ← reproducir (length poblacion) poblacion fitness [];
  mret (nueva_poblacion, fitness).

(** [fitness] is unbound until the first pass has run. *)
Fixpoint evolucionar (num_generaciones : nat) (poblacion : list loc)
    (fitness : option (list Q)) : M (list loc * option (list Q)) :=
  match num_generaciones with
  | 0 => mret (poblacion, fitness)
  | S g =>
      '(nueva_poblacion, fitness') ← generacion poblacion;
      evolucionar g nueva_poblacion (Some fitness')
  end.

(** What [main] does after the data have been read; it returns what it
    prints. *)
Definition extraer_mejor (poblacion : list loc) (fitness : option (list Q))
    : M (list nat * Q) :=
  fitness ← (match fitness with Some f => mret f | None => raise NameError end);
  idx ← argmin fitness;
  mejor ← item poblacion idx;
  mejor_orden ← deref mejor;
  mejor_esfuerzo ← try (evaluar_solucion mejor_orden preferencias tamanos);
  mret (mejor_orden, mejor_esfuerzo).

Definition main (num_puestos : Z) : M (list nat * Q) :=
  let num_generaciones := NUM_GENERACIONES in
  poblacion ← inicializar_poblacion num_puestos;
  '(poblacion, fitness) ← evolucionar num_generaciones poblacion None;
  extraer_mejor poblacion fitness.
End Instancia.

(** ** The objective function as the specification words it *)

(** The stations strictly between two positions of an ordering. *)
Definition estaciones_entre (i j : nat) (orden : list nat) : list nat :=
  take (j - (i + 1)) (drop (i + 1) orden).

Definition suma_total (l : list Z) : Z := foldr Z.add 0%Z l.

(** All pairs of positions [i < j] of an ordering of length [n]. *)
Definition pares (n : nat) : list (nat * nat) :=
  i ← range 0 (n - 1); j ← range (i + 1) n; [(i, j)].

(** Entry [(i, j)] of the preference matrix. *)
Definition entrada (preferencias : list (list Z)) (i j : nat) : option Z :=
  fila ← preferencias !! i; fila !! j.

Definition termino (orden : list nat) (preferencias : list (list Z))
    (tamanos : list Z) (ij : nat * nat) : option Q :=
  d ← distancia ij.1 ij.2 orden tamanos;
  p ← entrada preferencias ij.1 ij.2;
  Some (d * inject_Z p)%Q.

Definition suma_pares (orden : list nat) (preferencias : list (list Z))
    (tamanos : list Z) : option Q :=
  ts ← mapM (termino orden preferencias tamanos) (pares (length orden));
  Some (foldr Qplus 0%Q ts).

(** ** Selection, as the specification words it *)

(** The winner of a tournament: a drawn index whose fitness is least among
    the drawn indices. *)
Definition gana (fitness : list Q) (torneo : list nat) (ganador : nat) : Prop :=
  ganador ∈ torneo
  ∧ ∃ fg, fitness !! ganador = Some fg
          ∧ ∀ x, x ∈ torneo → ∃ fx, fitness !! x = Some fx ∧ (fg <= fx)%Q.

(** ** Candidates, as the specification words them *)

(** An ordering that holds every station index below [N] exactly once. *)
Definition es_permutacion (N : nat) (l : list nat) : Prop :=
  NoDup l ∧ ∀ x, x ∈ l ↔ x < N.

(** A reference to a list object that is such an ordering. *)
Definition candidato (N : nat) (h : list (list nat)) (r : loc) : Prop :=
  ∃ l, h !! r = Some l ∧ es_permutacion N l.

Definition poblacion_valida (N : nat) (h : list (list nat)) (poblacion : list loc)
    : Prop :=
  Forall (candidato N h) poblacion.

(** Every candidate of the first heap is still one in the second. *)
Definition conserva (N : nat) (h h' : list (list nat)) : Prop :=
  ∀ r, candidato N h r → candidato N h' r.

(** A computation that never stops for lack of fuel. *)
Definition con_combustible {A} (m : M A) : Prop := ∀ s, m s ≠ OutOfFuel.

(** ** A worked instance *)

(** Six stations of sizes 1..6; only the first two positions interact. *)
Definition tamanos_ej : list Z := [1; 2; 3; 4; 5; 6]%Z.
Definition preferencias_ej : list (list Z) :=
  [[0; 1; 0; 0; 0; 0]; [0; 0; 0; 0; 0; 0]; [0; 0; 0; 0; 0; 0];
   [0; 0; 0; 0; 0; 0]; [0; 0; 0; 0; 0; 0]; [0; 0; 0; 0; 0; 0]]%Z.

(** The draws of one pass through the reproduction loop: two tournaments,
    then the three calls to [random.random] with what they trigger. *)
Definition paso_quieto : list draw :=
  [DSample [0; 1; 2]; DSample [0; 1; 2]; DUnit (1 # 2); DUnit (1 # 2); DUnit (1 # 2)].
Definition paso_mutado : list draw :=
  [DSample [0; 1; 2]; DSample [0; 1; 2]; DUnit (1 # 2);
   DUnit (1 # 10); DSample [0; 5]; DUnit (1 # 2)].
Definition paso_cruzado : list draw :=
  [DSample [0; 1; 2]; DSample [2; 1; 0]; DUnit (1 # 10); DInt 3;
   DUnit (1 # 10); DSample [1; 4]; DUnit (1 # 2)].

(** A whole run of 100 generations, two passes each: nothing happens until
    the last generation, whose first child is mutated. *)
Definition cinta_ej : list draw :=
  concat (replicate 198 paso_quieto) ++ paso_mutado ++ paso_quieto.

(** The fitness vector of a population in a given state. *)
Definition fitness_de (preferencias : list (list Z)) (tamanos : list Z)
    (s : state) (poblacion : list loc) : option (list Q) :=
  mapM (λ r, l ← heap s !! r; evaluar_solucion l preferencias tamanos) poblacion.

(** ** Sizes along an ordering *)

(** The size of the station found at a position of an ordering. *)
Definition tamano_en (orden : list nat) (tamanos : list Z) (k : nat) : option Z :=
  ok ← orden !! k; tamanos !! ok.

Definition tamano_de (orden : list nat) (tamanos : list Z) (k : nat) : Z :=
  default 0%Z (tamano_en orden tamanos k).

(** Every object of the first heap is found unchanged in the second. *)
Definition intacto (h h' : list (list nat)) : Prop :=
  ∀ r, r < length h → h' !! r = h !! r.

(** ** The objective function in IEEE doubles

    [distancia] and [evaluar_solucion] above compute with exact rationals.
    The source computes with Python numbers: sizes, preferences and the sum
    of the sizes in between are unbounded ints, while [Lxi / 2], the sums and
    the products are binary64 floats.  The definitions below follow the
    source operation by operation in that arithmetic.  A double is kept by
    its value; the sign of a zero is not tracked (no operation of the program
    tells the two zeros apart). *)

Inductive doble :=
  | Finito (q : Q)
  | Infinito (negativo : bool)
  | NaN.

(** [floor (log2 (a / d))]. *)
Definition floor_log2 (a d : positive) : Z :=
  let k := (Z.log2 (Z.pos a) - Z.log2 (Z.pos d))%Z in
  if (0 <=? k)%Z
  then (if (Z.pos d * 2 ^ k <=? Z.pos a)%Z then k else k - 1)%Z
  else (if (Z.pos d <=? Z.pos a * 2 ^ (- k))%Z then k else k - 1)%Z.

(** The integer nearest to [num / den], ties to even. *)
Definition redondeo_par (num den : Z) : Z :=
  let k := (num / den)%Z in
  let r := (num mod den)%Z in
  if (2 * r <? den)%Z then k
  else if (den <? 2 * r)%Z then (k + 1)%Z
  else if Z.even k then k else (k + 1)%Z.

Definition con_signo (negativo : bool) (z : Z) : Z :=
  if negativo then (- z)%Z else z.

(** Rounding of [a / d] to binary64, to nearest, ties to even: 53 bits of
    mantissa, least exponent -1074, overflow to infinity from 2^1024. *)
Definition redondear_pos (negativo : bool) (a d : positive) : doble :=
  let e := Z.max (floor_log2 a d - 52) (-1074) in
  if (0 <=? e)%Z then
    let m := redondeo_par (Z.pos a) (Z.pos d * 2 ^ e) in
    if (2 ^ 1024 <=? m * 2 ^ e)%Z then Infinito negativo
    else Finito (inject_Z (con_signo negativo (m * 2 ^ e)))
  else
    let m := redondeo_par (Z.pos a * 2 ^ (- e)) (Z.pos d) in
    Finito (con_signo negativo m # Z.to_pos (2 ^ (- e))).

Definition redondear (q : Q) : doble :=
  match Qnum q with
  | Z0 => Finito 0
  | Z.pos a => redondear_pos false a (Qden q)
  | Z.neg a => redondear_pos true a (Qden q)
  end.

Definition Qnegativo (q : Q) : bool := (Qnum q <? 0)%Z.
Definition Qcero (q : Q) : bool := (Qnum q =? 0)%Z.

(** [x + y] and [x * y] on floats: the exact result, rounded. *)
Definition suma_doble (x y : doble) : doble :=
  match x, y with
  | NaN, _ | _, NaN => NaN
  | Finito a, Finito b => redondear (a + b)
  | Infinito s, Finito _ | Finito _, Infinito s => Infinito s
  | Infinito s, Infinito s' => if Bool.eqb s s' then Infinito s else NaN
  end.

Definition producto_doble (x y : doble) : doble :=
  match x, y with
  | NaN, _ | _, NaN => NaN
  | Finito a, Finito b => redondear (a * b)
  | Infinito s, Finito b | Finito b, Infinito s =>
      if Qcero b then NaN else Infinito (xorb s (Qnegativo b))
  | Infinito s, Infinito s' => Infinito (xorb s s')
  end.

(** The two exceptions of the evaluator, and its results. *)
Inductive fallo := FIndexError | FOverflowError.

Inductive res (A : Type) :=
  | Val (a : A)
  | Err (f : fallo).
Arguments Val {A} a.
Arguments Err {A} f.

#[global] Instance res_ret : MRet res := λ A a, Val a.
#[global] Instance res_bind : MBind res := λ A B f m,
  match m with
  | Val a => f a
  | Err e => Err e
  end.

Definition indice {A} (o : option A) : res A :=
  match o with Some a => Val a | None => Err FIndexError end.

(** An int that meets a float is converted first; [OverflowError] when it
    is too large for a float. *)
Definition flotante_de_entero (z : Z) : res doble :=
  match redondear (inject_Z z) with
  | Infinito _ => Err FOverflowError
  | d => Val d
  end.

(** [z / 2] on an int: the quotient, correctly rounded; [OverflowError]
    when it is too large for a float. *)
Definition division_entre_dos (z : Z) : res doble :=
  match redondear (inject_Z z / 2) with
  | Infinito _ => Err FOverflowError
  | d => Val d
  end.

Fixpoint for_res {A S} (l : list A) (f : S → A → res S) (acc : S) : res S :=
  match l with
  | [] => Val acc
  | x :: l' => acc' ← f acc x; for_res l' f acc'
  end.

Definition distancia_doble (i j : nat) (orden : list nat) (tamanos : list Z)
    : res doble :=
  oi ← indice (orden !! i); Lxi ← indice (tamanos !! oi);
  oj ← indice (orden !! j); Lxj ← indice (tamanos !! oj);
  medio ← mapM (λ k, ok ← indice (orden !! k); indice (tamanos !! ok))
               (range (i + 1) j);
  let suma_intermedia := sum medio in
  a ← division_entre_dos Lxi;
  s ← flotante_de_entero suma_intermedia;
  b ← division_entre_dos Lxj;
  mret (suma_doble (suma_doble a s) b).

Definition evaluar_solucion_doble (orden : list nat) (preferencias : list (list Z))
    (tamanos : list Z) : res doble :=
  let n := length orden in
  for_res (range 0 (n - 1)) (λ esfuerzo i,
    for_res (range (i + 1) n) (λ esfuerzo j,
      d ← distancia_doble i j orden tamanos;
      fila ← indice (preferencias !! i);
      p ← indice (fila !! j);
      pf ← flotante_de_entero p;
      mret (suma_doble esfuerzo (producto_doble d pf))) esfuerzo) (Finito 0).

(** One term of the sum, as the loop body computes it. *)
Definition termino_doble (orden : list nat) (preferencias : list (list Z))
    (tamanos : list Z) (ij : nat * nat) : res doble :=
  d ← distancia_doble ij.1 ij.2 orden tamanos;
  p ← indice (entrada preferencias ij.1 ij.2);
  pf ← flotante_de_entero p;
  mret (producto_doble d pf).

(** *** The range in which doubles are exact *)

(** [q] is the half of the integer [h]. *)
Definition semientero (q : Q) (h : Z) : Prop := (q == inject_Z h / 2)%Q.

(** The total of the sizes along an ordering, and of the preferences the
    evaluator reads, in absolute value (what is missing counts for 0). *)
Definition peso_tamanos (orden : list nat) (tamanos : list Z) : Z :=
  suma_total ((λ k, Z.abs (tamano_de orden tamanos k)) <$> seq 0 (length orden)).

Definition entrada_de (preferencias : list (list Z)) (ij : nat * nat) : Z :=
  default 0%Z (entrada preferencias ij.1 ij.2).

Definition peso_preferencias (orden : list nat) (preferencias : list (list Z)) : Z :=
  suma_total ((λ ij, Z.abs (entrada_de preferencias ij)) <$> pares (length orden)).

(** Every number the evaluator builds is then half an integer below 2^53. *)
Definition tamanos_en_rango (orden : list nat) (tamanos : list Z) : Prop :=
  (2 * peso_tamanos orden tamanos < 2 ^ 53)%Z.

Definition en_rango (orden : list nat) (preferencias : list (list Z))
    (tamanos : list Z) : Prop :=
  (2 * (1 + peso_tamanos orden tamanos) * (1 + peso_preferencias orden preferencias)
   ≤ 2 ^ 53)%Z.

(** The result in doubles and the result in exact arithmetic agree: the
    same value, or [IndexError] on both sides. *)
Definition coincide (r : res doble) (o : option Q) : Prop :=
  match r, o with
  | Val (Finito x), Some q => (x == q)%Q
  | Err FIndexError, None => True
  | _, _ => False
  end.

(** Doubles given by mantissa and exponent, for comparison with the
    binary64 operations of the standard library. *)
Definition doble_de_SpecFloat (f : SpecFloat.spec_float) : doble :=
  match f with
  | SpecFloat.S754_zero _ => Finito 0
  | SpecFloat.S754_infinity s => Infinito s
  | SpecFloat.S754_nan => NaN
  | SpecFloat.S754_finite s m e =>
      Finito (if (0 <=? e)%Z then inject_Z (con_signo s (Z.pos m * 2 ^ e))
              else con_signo s (Z.pos m) # Z.to_pos (2 ^ (- e)))
  end.

Definition mismo_doble (x y : doble) : bool :=
  match x, y with
  | Finito a, Finito b => Qeq_bool a b
  | Infinito s, Infinito s' => Bool.eqb s s'
  | NaN, NaN => true
  | _, _ => false
  end.

Definition bateria : list (Z * Z) :=
  [(1, 0); (3, 0); (2 ^ 53 + 1, 0); (2 ^ 53 + 3, 0); (2 ^ 54 + 2, 0);
   (2 ^ 54 + 6, 0); (- (2 ^ 53 + 1), 0); (12345678901234567890123, 0);
   (1, -1074); (1, -1075); (3, -1075); (3, -1076); (5, -1076);
   (2 ^ 53 + 1, -1080); (2 ^ 53 - 1, 971); (2 ^ 53, 971); (2 ^ 54 - 1, 970);
   (2 ^ 54 - 2, 970); (2 ^ 54 - 3, 970); (10 ^ 308, 0); (10 ^ 309, 0);
   (7, -3); (2 ^ 60 + 2 ^ 7, 0); (2 ^ 60 + 2 ^ 7 + 1, 0);
   (2 ^ 60 + 3 * 2 ^ 7, 0); (2 ^ 53 + 1, -1); (3 * (2 ^ 53 + 1), 0);
   (2 ^ 200 + 1, -1200); (2 ^ 52 + 1, -1075); (2 ^ 52 + 1, -1127)]%Z.

(** The rational [m * 2^e]. *)
Definition de_mantisa (m e : Z) : Q :=
  if (0 <=? e)%Z then inject_Z (m * 2 ^ e) else m # Z.to_pos (2 ^ (- e)).

Definition bateria_cocientes : list (Z * Z) :=
  [(1, 3); (2, 3); (1, 10); (7, 10); (22, 7); (1, 1000000007);
   (123456789, 1000); (-1, 3); (2 ^ 53 - 1, 3); (2 ^ 52 + 1, 7)]%Z.

(** * Properties *)

(** ** Built-ins *)

Lemma sum_suma_total (l : list Z) : sum l = suma_total l.
Proof.
  unfold sum, suma_total.
  enough (H : ∀ a, foldl Z.add a l = (a + foldr Z.add 0 l)%Z) by (rewrite H; lia).
  induction l as [|x l IH]; intros a; simpl; [lia|]. rewrite IH. lia.
Qed.

Lemma elem_of_range (a b x : nat) : x ∈ range a b ↔ a ≤ x < b.
Proof. unfold range. rewrite elem_of_seq. lia. Qed.

Lemma for_acc_app {A S} (l1 l2 : list A) (f : S → A → option S) (acc : S) :
  for_acc (l1 ++ l2) f acc = for_acc l1 f acc ≫= for_acc l2 f.
Proof.
  revert acc. induction l1 as [|x l1 IH]; intros acc; simpl; [done|].
  destruct (f acc x); simpl; [apply IH | done].
Qed.

Lemma for_acc_ext {A S} (l : list A) (f g : S → A → option S) (acc : S) :
  (∀ x a, x ∈ l → f a x = g a x) → for_acc l f acc = for_acc l g acc.
Proof.
  revert acc. induction l as [|x l IH]; intros acc H; simpl; [done|].
  rewrite (H x acc) by left. destruct (g acc x); simpl; [|done].
  apply IH. intros y a Hy. apply H. by right.
Qed.

(** ** Distances *)

Lemma mapM_seq_lookup {B} (f : nat → option B) (orden : list nat) (a n : nat) :
  a + n ≤ length orden →
  mapM (λ k, ok ← orden !! k; f ok) (seq a n) = mapM f (take n (drop a orden)).
Proof.
  revert a. induction n as [|n IH]; intros a Hle; [done|].
  destruct (lookup_lt_is_Some_2 orden a) as [x Hx]; [lia|].
  rewrite (drop_S _ _ _ Hx). simpl. rewrite Hx. simpl.
  rewrite IH by lia. done.
Qed.

Lemma tamano_definido (orden : list nat) (tamanos : list Z) (k : nat) :
  Forall (λ x, x < length tamanos) orden → k < length orden →
  ∃ ok Lk, orden !! k = Some ok ∧ tamanos !! ok = Some Lk.
Proof.
  intros Hall Hk.
  destruct (lookup_lt_is_Some_2 orden k Hk) as [ok Hok].
  rewrite Forall_lookup in Hall. specialize (Hall _ _ Hok).
  destruct (lookup_lt_is_Some_2 tamanos ok Hall) as [Lk HLk]. eauto.
Qed.

Lemma tamanos_entre_definidos (orden : list nat) (tamanos : list Z) (i j : nat) :
  Forall (λ x, x < length tamanos) orden →
  ∃ entre, mapM (tamanos !!.) (estaciones_entre i j orden) = Some entre.
Proof.
  intros Hall. apply mapM_is_Some. unfold estaciones_entre.
  apply Forall_take, Forall_drop. eapply Forall_impl; [|exact Hall].
  intros x Hx. by apply lookup_lt_is_Some_2.
Qed.

Lemma distancia_desarrollo (orden : list nat) (tamanos : list Z) (i j : nat)
    (Lxi Lxj : Z) (entre : list Z) :
  j ≤ length orden →
  orden !! i ≫= (tamanos !!.) = Some Lxi →
  orden !! j ≫= (tamanos !!.) = Some Lxj →
  mapM (tamanos !!.) (estaciones_entre i j orden) = Some entre →
  distancia i j orden tamanos
  = Some (inject_Z Lxi / 2 + inject_Z (sum entre) + inject_Z Lxj / 2)%Q.
Proof.
  intros Hj Hi Hj' Hentre. unfold distancia.
  destruct (orden !! i) as [oi|]; [simpl in Hi|done]. simpl. rewrite Hi. simpl.
  destruct (orden !! j) as [oj|]; [simpl in Hj'|done]. simpl. rewrite Hj'. simpl.
  unfold range.
  destruct (decide (i + 1 ≤ j)) as [Hij|Hij].
  - rewrite mapM_seq_lookup by lia. unfold estaciones_entre in Hentre.
    rewrite Hentre. done.
  - unfold estaciones_entre in Hentre.
    replace (j - (i + 1)) with 0 in * by lia. simpl in *.
    by injection Hentre as <-.
Qed.

Lemma distancia_definida (orden : list nat) (tamanos : list Z) (i j : nat) :
  Forall (λ x, x < length tamanos) orden → i < length orden → j < length orden →
  is_Some (distancia i j orden tamanos).
Proof.
  intros Hall Hi Hj.
  destruct (tamano_definido orden tamanos i Hall Hi) as (oi & Lxi & Hoi & HLxi).
  destruct (tamano_definido orden tamanos j Hall Hj) as (oj & Lxj & Hoj & HLxj).
  destruct (tamanos_entre_definidos orden tamanos i j Hall) as [entre Hentre].
  erewrite distancia_desarrollo; [done|lia| | |done].
  - by rewrite Hoi.
  - by rewrite Hoj.
Qed.

(** In exact arithmetic, for positions [i < j] of an ordering whose stations
    all have a size, [distancia] is half the size of the station at position
    [i], plus the full sizes of the stations strictly between the two
    positions, plus half the size of the station at position [j]. *)
Lemma distancia_formula :
  (∀ (orden : list nat) (tamanos : list Z) (i j : nat),
     i < j → j < length orden → Forall (λ x, x < length tamanos) orden →
     ∃ (Lxi Lxj : Z) (entre : list Z) (d : Q),
       orden !! i ≫= (tamanos !!.) = Some Lxi ∧
       orden !! j ≫= (tamanos !!.) = Some Lxj ∧
       mapM (tamanos !!.) (estaciones_entre i j orden) = Some entre ∧
       distancia i j orden tamanos = Some d ∧
       (d == inject_Z Lxi / 2 + inject_Z (suma_total entre) + inject_Z Lxj / 2)%Q)
  ∧ (∃ d : Q, distancia 0 2 [0; 1; 2] [2; 2; 2]%Z = Some d ∧ (d == 4)%Q).
Proof.
  split.
  - intros orden tamanos i j Hij Hj Hall.
    destruct (tamano_definido orden tamanos i Hall) as (oi & Lxi & Hoi & HLxi); [lia|].
    destruct (tamano_definido orden tamanos j Hall Hj) as (oj & Lxj & Hoj & HLxj).
    destruct (tamanos_entre_definidos orden tamanos i j Hall) as [entre Hentre].
    exists Lxi, Lxj, entre. eexists. split_and!.
    + by rewrite Hoi.
    + by rewrite Hoj.
    + done.
    + apply distancia_desarrollo; [lia| | |done].
      * by rewrite Hoi.
      * by rewrite Hoj.
    + by rewrite sum_suma_total.
  - eexists. split; [reflexivity|]. reflexivity.
Qed.

(** ** The evaluator *)

Lemma elem_of_pares (n i j : nat) : (i, j) ∈ pares n ↔ i < j < n.
Proof.
  unfold pares. rewrite list_elem_of_bind. split.
  - intros (a & Hin & Ha). apply list_elem_of_bind in Hin as (b & Hin & Hb).
    apply list_elem_of_singleton in Hin. injection Hin as -> ->.
    apply elem_of_range in Ha, Hb. lia.
  - intros Hij. exists i. split.
    + apply list_elem_of_bind. exists j. split; [by apply list_elem_of_singleton|].
      apply elem_of_range. lia.
    + apply elem_of_range. lia.
Qed.

Lemma NoDup_pares (n : nat) : NoDup (pares n).
Proof.
  unfold pares. apply NoDup_bind.
  - intros i1 i2 [a b] _ _ H1 H2.
    apply list_elem_of_bind in H1 as (j1 & H1 & _).
    apply list_elem_of_bind in H2 as (j2 & H2 & _).
    apply list_elem_of_singleton in H1, H2. congruence.
  - intros i _. apply NoDup_bind.
    + intros j1 j2 [a b] _ _ H1 H2.
      apply list_elem_of_singleton in H1, H2. congruence.
    + intros j _. apply NoDup_singleton.
    + apply NoDup_seq.
  - apply NoDup_seq.
Qed.

(** The two nested loops visit the pairs of [pares] in order. *)
Lemma for_acc_pares {S} (f : S → nat * nat → option S) (g : nat → list nat)
    (l : list nat) (acc : S) :
  for_acc l (λ a i, for_acc (g i) (λ a' j, f a' (i, j)) a) acc
  = for_acc (i ← l; j ← g i; [(i, j)]) f acc.
Proof.
  revert acc. induction l as [|i l IH]; intros acc; [done|].
  simpl. rewrite for_acc_app.
  assert (Hin : ∀ a, for_acc (g i) (λ a' j, f a' (i, j)) a
                     = for_acc (j ← g i; [(i, j)]) f a).
  { generalize (g i). intros k. induction k as [|j k IHk]; intros a; [done|].
    simpl. destruct (f a (i, j)); simpl; [apply IHk|done]. }
  rewrite Hin. destruct (for_acc _ f acc); simpl; [apply IH|done].
Qed.

Lemma evaluar_solucion_pares (orden : list nat) (preferencias : list (list Z))
    (tamanos : list Z) :
  evaluar_solucion orden preferencias tamanos
  = for_acc (pares (length orden))
      (λ esfuerzo ij, x ← termino orden preferencias tamanos ij; Some (esfuerzo + x)%Q)
      0%Q.
Proof.
  unfold evaluar_solucion, pares. cbv zeta.
  rewrite <- (for_acc_pares (λ esfuerzo ij,
    x ← termino orden preferencias tamanos ij; Some (esfuerzo + x)%Q)).
  apply for_acc_ext. intros i a _. apply for_acc_ext. intros j a' _.
  unfold termino, entrada. simpl.
  destruct (distancia i j orden tamanos); simpl; [|done].
  destruct (preferencias !! i) as [fila|]; simpl; [|done].
  by destruct (fila !! j).
Qed.

Lemma for_acc_mapM {A} (g : A → option Q) (l : list A) (a : Q) :
  for_acc l (λ acc x, t ← g x; Some (acc + t)%Q) a
  = ts ← mapM g l; Some (foldl Qplus a ts).
Proof.
  revert a. induction l as [|x l IH]; intros a; [done|].
  simpl. destruct (g x) as [t|]; simpl; [|done].
  rewrite IH. by destruct (mapM g l).
Qed.

Lemma foldl_Qplus (ts : list Q) (a : Q) :
  (foldl Qplus a ts == a + foldr Qplus 0 ts)%Q.
Proof.
  revert a. induction ts as [|t ts IH]; intros a; simpl.
  - by rewrite Qplus_0_r.
  - rewrite IH. by rewrite Qplus_assoc.
Qed.

(** In exact arithmetic, [evaluar_solucion] is the sum, over the pairs of
    positions [i < j] of the ordering, of the distance between the two
    positions times the entry [(i, j)] of the preference matrix. *)
Lemma evaluar_solucion_suma_pares (orden : list nat) (preferencias : list (list Z))
    (tamanos : list Z) :
  (∀ i j, (i, j) ∈ pares (length orden) ↔ i < j < length orden)
  ∧ NoDup (pares (length orden))
  ∧ option_Forall2 Qeq (evaluar_solucion orden preferencias tamanos)
                       (suma_pares orden preferencias tamanos)
  ∧ (∀ preferencias' : list (list Z),
       (∀ i j, i < j < length orden →
               entrada preferencias' i j = entrada preferencias i j) →
       evaluar_solucion orden preferencias' tamanos
       = evaluar_solucion orden preferencias tamanos).
Proof.
  split_and!.
  - intros i j. apply elem_of_pares.
  - apply NoDup_pares.
  - rewrite evaluar_solucion_pares, for_acc_mapM. unfold suma_pares.
    destruct (mapM _ _) as [ts|]; simpl; constructor.
    rewrite foldl_Qplus. by rewrite Qplus_0_l.
  - intros preferencias' Hagree. rewrite !evaluar_solucion_pares.
    apply for_acc_ext. intros [i j] a Hin. apply elem_of_pares in Hin.
    unfold termino. simpl. by rewrite Hagree.
Qed.

(** With a matrix of zeros every term of the sum vanishes. *)
Lemma evaluar_solucion_ceros (orden : list nat) (preferencias : list (list Z))
    (tamanos : list Z) :
  Forall (λ x, x < length tamanos) orden →
  (∀ i j, i < j < length orden → entrada preferencias i j = Some 0%Z) →
  ∃ c : Q, evaluar_solucion orden preferencias tamanos = Some c ∧ (c == 0)%Q.
Proof.
  intros Hall Hcero. rewrite evaluar_solucion_pares.
  assert (Hin : ∀ ij, ij ∈ pares (length orden) → ij.1 < ij.2 < length orden).
  { intros [i j]. apply elem_of_pares. }
  revert Hin. generalize (pares (length orden)). intros l.
  assert (Hgen : ∀ a : Q, (a == 0)%Q →
    (∀ ij, ij ∈ l → ij.1 < ij.2 < length orden) →
    ∃ c : Q, for_acc l (λ esfuerzo ij,
        x ← termino orden preferencias tamanos ij; Some (esfuerzo + x)%Q) a = Some c
      ∧ (c == 0)%Q); [|by apply Hgen].
  induction l as [|[i j] l IH]; intros a Ha Hin; simpl.
  - eauto.
  - assert (Hij : i < j < length orden) by (apply (Hin (i, j)); left).
    destruct (distancia_definida orden tamanos i j Hall) as [d Hd]; [lia..|].
    assert (Ht : termino orden preferencias tamanos (i, j)
                 = Some (d * inject_Z 0)%Q).
    { unfold termino. cbn [fst snd]. by rewrite Hd, (Hcero i j Hij). }
    rewrite Ht. cbn [mbind option_bind].
    apply IH.
    + rewrite Ha. simpl. ring.
    + intros ij Hij'. apply Hin. by right.
Qed.

Lemma entrada_replicate (n i j : nat) (z : Z) :
  i < n → j < n → entrada (replicate n (replicate n z)) i j = Some z.
Proof.
  intros Hi Hj. unfold entrada.
  rewrite (lookup_replicate_2 n (replicate n z) i Hi). simpl.
  by apply lookup_replicate_2.
Qed.

(** ** Runs: inversion of successful steps *)

Lemma bind_Ok {A B} (m : M A) (f : A → M B) (s : state) (b : B) (s' : state) :
  (m ≫= f) s = Ok b s' ↔ ∃ a s1, m s = Ok a s1 ∧ f a s1 = Ok b s'.
Proof.
  unfold mbind, M_bind. destruct (m s) as [a s1| | |].
  - split; [by exists a, s1|]. by intros (a' & s1' & [= -> ->] & H).
  - split; [done|]. by intros (a' & s1' & [=] & _).
  - split; [done|]. by intros (a' & s1' & [=] & _).
  - split; [done|]. by intros (a' & s1' & [=] & _).
Qed.

Lemma bind_run {A B} (m : M A) (f : A → M B) (s : state) (a : A) (s1 : state) :
  m s = Ok a s1 → (m ≫= f) s = f a s1.
Proof. unfold mbind, M_bind. by intros ->. Qed.

Lemma ret_Ok {A} (a b : A) (s s' : state) :
  (mret a : M A) s = Ok b s' ↔ a = b ∧ s = s'.
Proof. unfold mret, M_ret. split; [by intros [= -> ->]|by intros [-> ->]]. Qed.

Lemma try_Ok {A} (o : option A) (a : A) (s s' : state) :
  try o s = Ok a s' ↔ o = Some a ∧ s = s'.
Proof.
  destruct o as [x|]; unfold try, raise.
  - rewrite ret_Ok. split; [by intros [-> ->]|by intros [[= ->] ->]].
  - split; [done|]. by intros [[=] _].
Qed.

Lemma deref_Ok (r : loc) (l : list nat) (s s' : state) :
  deref r s = Ok l s' ↔ heap s !! r = Some l ∧ s = s'.
Proof.
  unfold deref. destruct (heap s !! r) as [l0|].
  - split; [by intros [= -> ->]|by intros [[= ->] ->]].
  - split; [done|]. by intros [[=] _].
Qed.

Lemma alloc_Ok (l : list nat) (r : loc) (s s' : state) :
  alloc l s = Ok r s'
  ↔ r = length (heap s) ∧ s' = State (heap s ++ [l]) (tape s).
Proof. unfold alloc. split; [by intros [= <- <-]|by intros [-> ->]]. Qed.

Lemma copy_Ok (r r' : loc) (s s' : state) :
  copy r s = Ok r' s'
  ↔ ∃ l, heap s !! r = Some l ∧ r' = length (heap s)
         ∧ s' = State (heap s ++ [l]) (tape s).
Proof.
  unfold copy. rewrite bind_Ok. split.
  - intros (l & s1 & Hd & Ha). apply deref_Ok in Hd as [Hl <-].
    apply alloc_Ok in Ha as [-> ->]. by exists l.
  - intros (l & Hl & -> & ->). exists l, s. by rewrite deref_Ok, alloc_Ok.
Qed.

Lemma next_draw_Ok (d : draw) (s s' : state) :
  next_draw s = Ok d s' ↔ ∃ t, tape s = d :: t ∧ s' = State (heap s) t.
Proof.
  unfold next_draw. destruct (tape s) as [|d0 t0].
  - split; [done|]. by intros (t & [=] & _).
  - split; [intros [= -> <-]; by exists t0|]. by intros (t & [= -> ->] & ->).
Qed.

Lemma random_sample_Ok (n k : nat) (l : list nat) (s s' : state) :
  random_sample n k s = Ok l s'
  ↔ k ≤ n ∧ length l = k ∧ NoDup l ∧ Forall (λ x, x < n) l
    ∧ ∃ t, tape s = DSample l :: t ∧ s' = State (heap s) t.
Proof.
  unfold random_sample. destruct (decide (n < k)) as [Hlt|Hge].
  { unfold raise. split; [done|]. lia. }
  rewrite bind_Ok. split.
  - intros (d & s1 & Hd & Hm). apply next_draw_Ok in Hd as (t & Ht & ->).
    destruct d as [l0| |]; try done.
    destruct (decide _) as [(Hl & Hnd & Hall)|]; [|done].
    apply ret_Ok in Hm as [-> <-]. split_and!; [lia|done..|eauto].
  - intros (_ & Hl & Hnd & Hall & t & Ht & ->).
    exists (DSample l), (State (heap s) t). rewrite next_draw_Ok. split; [eauto|].
    by rewrite decide_True.
Qed.

Lemma random_randint_Ok (a b z : Z) (s s' : state) :
  random_randint a b s = Ok z s'
  ↔ (a ≤ z ≤ b)%Z ∧ ∃ t, tape s = DInt z :: t ∧ s' = State (heap s) t.
Proof.
  unfold random_randint. destruct (decide (b < a)%Z) as [Hlt|Hge].
  { unfold raise. split; [done|]. lia. }
  rewrite bind_Ok. split.
  - intros (d & s1 & Hd & Hm). apply next_draw_Ok in Hd as (t & Ht & ->).
    destruct d as [|z0|]; try done.
    destruct (decide _) as [Hz|]; [|done].
    apply ret_Ok in Hm as [-> <-]. eauto.
  - intros (Hz & t & Ht & ->).
    exists (DInt z), (State (heap s) t). rewrite next_draw_Ok. split; [eauto|].
    by rewrite decide_True.
Qed.

Lemma random_random_Ok (q : Q) (s s' : state) :
  random_random s = Ok q s' → ∃ t, tape s = DUnit q :: t ∧ s' = State (heap s) t.
Proof.
  unfold random_random. rewrite bind_Ok.
  intros (d & s1 & Hd & Hm). apply next_draw_Ok in Hd as (t & Ht & ->).
  destruct d as [| |q0]; try done.
  destruct (_ && _); [|done]. apply ret_Ok in Hm as [-> <-]. eauto.
Qed.

(** ** The initial population *)

Lemma mapM_alloc {A} (l : list nat) (xs : list A) (s : state) :
  mapM (λ _, alloc l) xs s
  = Ok (seq (length (heap s)) (length xs))
       (State (heap s ++ replicate (length xs) l) (tape s)).
Proof.
  revert s. induction xs as [|x xs IH]; intros s.
  - simpl. unfold mret, M_ret. rewrite app_nil_r. by destruct s.
  - cbn [mapM]. rewrite (bind_run (alloc l) _ s _ _ eq_refl).
    rewrite (bind_run _ _ _ _ _ (IH _)). unfold mret, M_ret. cbn [heap tape].
    rewrite length_app, <- app_assoc. simpl.
    by replace (length (heap s) + 1) with (S (length (heap s))) by lia.
Qed.

Lemma int_mitad (z : Z) :
  (0 ≤ z)%Z → int (inject_Z z * (5 # 10)) = Qfloor (inject_Z z * (1 # 2)).
Proof.
  intros Hz. unfold int, Qfloor. simpl.
  rewrite Z.quot_div_nonneg by lia.
  Z.div_mod_to_equations. lia.
Qed.



(** ** Tournament selection *)

Lemma Qltb_true (a b : Q) : Qltb a b = true ↔ (a < b)%Q.
Proof.
  unfold Qltb. rewrite negb_true_iff, <- not_true_iff_false, Qle_bool_iff.
  split; [apply Qnot_le_lt | apply Qlt_not_le].
Qed.

Lemma Qltb_false (a b : Q) : Qltb a b = false ↔ (b <= a)%Q.
Proof. unfold Qltb. by rewrite negb_false_iff, Qle_bool_iff. Qed.

Lemma min_key_from_state (l : list nat) (key : nat → option Q) (best : nat)
    (kbest : Q) (g : nat) (s s' : state) :
  min_key_from l key best kbest s = Ok g s' → s' = s ∧ g ∈ best :: l.
Proof.
  revert best kbest. induction l as [|x l IH]; intros best kbest; simpl.
  - intros [-> ->]%ret_Ok. split; [done|left].
  - intros (kx & s1 & [_ <-]%try_Ok & H)%bind_Ok.
    destruct (Qltb kx kbest); apply IH in H as [-> Hg]; split; try done.
    + by right.
    + apply elem_of_cons in Hg as [->|Hg]; [left|by do 2 right].
Qed.

Lemma min_key_state (l : list nat) (key : nat → option Q) (g : nat) (s s' : state) :
  min_key l key s = Ok g s' → s' = s ∧ g ∈ l.
Proof.
  destruct l as [|x l]; simpl; [done|].
  intros (kx & s1 & [_ <-]%try_Ok & H)%bind_Ok. by apply min_key_from_state in H.
Qed.

Lemma min_key_from_minimo (l : list nat) (key : nat → option Q) (best : nat)
    (kbest : Q) (s : state) :
  key best = Some kbest → Forall (λ x, is_Some (key x)) l →
  ∃ (g : nat) (kg : Q),
    min_key_from l key best kbest s = Ok g s
    ∧ g ∈ best :: l ∧ key g = Some kg ∧ (kg <= kbest)%Q
    ∧ ∀ x, x ∈ l → ∃ kx, key x = Some kx ∧ (kg <= kx)%Q.
Proof.
  revert best kbest. induction l as [|x l IH]; intros best kbest Hbest Hall; simpl.
  - exists best, kbest. split_and!; [done|left|done|apply Qle_refl|].
    intros x Hx. by apply elem_of_nil in Hx.
  - apply list.Forall_cons in Hall as [[kx Hkx] Hall].
    rewrite Hkx. rewrite (bind_run (try (Some kx)) _ s kx s eq_refl).
    destruct (Qltb kx kbest) eqn:Hcmp.
    + apply Qltb_true in Hcmp.
      destruct (IH x kx Hkx Hall) as (g & kg & Hrun & Hg & Hkg & Hle & Hmin).
      exists g, kg. split_and!; [done|by right|done| |].
      * apply Qlt_le_weak, (Qle_lt_trans _ kx); done.
      * intros y [->|Hy]%elem_of_cons; eauto.
    + apply Qltb_false in Hcmp.
      destruct (IH best kbest Hbest Hall) as (g & kg & Hrun & Hg & Hkg & Hle & Hmin).
      exists g, kg. split_and!; [done| |done..|].
      * apply elem_of_cons in Hg as [->|Hg]; [left|by do 2 right].
      * intros y [->|Hy]%elem_of_cons; [|eauto].
        exists kx. split; [done|]. by apply (Qle_trans _ kbest).
Qed.

Lemma min_key_gana (fitness : list Q) (torneo : list nat) (s : state) :
  torneo ≠ [] → Forall (λ x, x < length fitness) torneo →
  ∃ ganador, min_key torneo (λ x, fitness !! x) s = Ok ganador s
             ∧ gana fitness torneo ganador.
Proof.
  intros Hne Hall. destruct torneo as [|x l]; [done|]. simpl.
  assert (Hdef : Forall (λ y, is_Some (fitness !! y)) (x :: l)).
  { eapply Forall_impl; [|exact Hall]. intros y Hy. by apply lookup_lt_is_Some_2. }
  apply list.Forall_cons in Hdef as [[kx Hkx] Hdef]. rewrite Hkx.
  rewrite (bind_run (try (Some kx)) _ s kx s eq_refl).
  destruct (min_key_from_minimo l (λ y, fitness !! y) x kx s Hkx Hdef)
    as (g & kg & Hrun & Hg & Hkg & Hle & Hmin).
  exists g. split; [done|]. split; [done|]. exists kg. split; [done|].
  intros y [->|Hy]%elem_of_cons; eauto.
Qed.

Lemma seleccion_torneo_Ok (poblacion : list loc) (fitness : list Q) (k : nat)
    (r : loc) (s s' : state) :
  seleccion_torneo poblacion fitness k s = Ok r s' →
  1 ≤ k ≤ length poblacion
  ∧ ∃ (torneo : list nat) (t : list draw) (ganador : nat) (r0 : loc) (l : list nat),
      tape s = DSample torneo :: t ∧ ganador ∈ torneo
      ∧ poblacion !! ganador = Some r0 ∧ heap s !! r0 = Some l
      ∧ r = length (heap s) ∧ s' = State (heap s ++ [l]) t.
Proof.
  unfold seleccion_torneo.
  intros (torneo & s1 & Hs & H)%bind_Ok.
  apply random_sample_Ok in Hs as (Hk & Hlen & Hnd & Hall & t & Ht & ->).
  apply bind_Ok in H as (ganador & s2 & Hmin & H).
  apply min_key_state in Hmin as [-> Hg].
  apply bind_Ok in H as (r0 & s3 & [Hr0 <-]%try_Ok & H).
  apply copy_Ok in H as (l & Hl & -> & ->). cbn [heap tape] in *.
  split.
  - destruct torneo; [by apply elem_of_nil in Hg|]. simpl in Hlen. lia.
  - by exists torneo, t, ganador, r0, l.
Qed.




(** ** Crossover *)

Lemma filter_ninguno {A} (P : A → Prop) `{!∀ x, Decision (P x)} (l : list A) :
  Forall (λ x, ¬ P x) l → filter P l = [].
Proof.
  induction 1 as [|x l Hx _ IH]; [done|]. by rewrite filter_cons_False.
Qed.

Lemma filter_todos {A} (P : A → Prop) `{!∀ x, Decision (P x)} (l : list A) :
  Forall P l → filter P l = l.
Proof.
  induction 1 as [|x l Hx _ IH]; [done|]. rewrite filter_cons_True by done.
  by rewrite IH.
Qed.

Lemma hijo_de_permutacion (p : nat) (a b : list nat) :
  NoDup a → a ≡ₚ b → hijo_de p a b ≡ₚ a.
Proof.
  intros Hnd Hab. unfold hijo_de.
  transitivity (take p a ++ drop p a); [|by rewrite take_drop].
  apply Permutation_app_head.
  set (P := λ gen, gen ∉ take p a). rewrite <- Hab.
  assert (Hfil : filter P (take p a ++ drop p a) = drop p a).
  { rewrite <- (take_drop p a) in Hnd.
    apply list.NoDup_app in Hnd as (_ & Hdis & _).
    rewrite list.filter_app, filter_ninguno, filter_todos; [done| |].
    - apply list.Forall_forall. intros x Hx Hin. by apply (Hdis x).
    - apply list.Forall_forall. intros x Hx. unfold P. tauto. }
  rewrite take_drop in Hfil. by rewrite Hfil.
Qed.

(** C4. For two parents that are permutations of one another, of length
    [L >= 2], crossover draws its point [p] in [1, L-1]; child 1 is the first
    [p] genes of parent 1 followed by the genes of parent 2, in the order of
    parent 2, that are not among them, child 2 likewise with the roles
    swapped, and each child is a permutation of the parents.  With parents
    [0,1,2,3] and [3,2,1,0] and [p = 2], child 1 is [0,1,3,2]. *)
Theorem cruce_spec (padre1 padre2 : loc) (p1 p2 : list nat) (s : state) :
  heap s !! padre1 = Some p1 → heap s !! padre2 = Some p2 →
  NoDup p1 → p1 ≡ₚ p2 → 2 ≤ length p1 →
  (∀ h s', cruce padre1 padre2 s = Ok h s' →
     ∃ (p : Z) (t : list draw),
       tape s = DInt p :: t ∧ (1 ≤ p ≤ Z.of_nat (length p1) - 1)%Z)
  ∧ (∀ (p : nat) (t : list draw),
       tape s = DInt (Z.of_nat p) :: t → 1 ≤ p ≤ length p1 - 1 →
       let hijo1 := take p p1 ++ filter (λ gen, gen ∉ take p p1) p2 in
       let hijo2 := take p p2 ++ filter (λ gen, gen ∉ take p p2) p1 in
       cruce padre1 padre2 s
       = Ok (length (heap s), S (length (heap s)))
            (State (heap s ++ [hijo1; hijo2]) t)
       ∧ hijo1 ≡ₚ p1 ∧ hijo2 ≡ₚ p2 ∧ NoDup hijo1 ∧ NoDup hijo2)
  ∧ cruce 0 1 (State [[0; 1; 2; 3]; [3; 2; 1; 0]] [DInt 2])
    = Ok (2, 3) (State [[0; 1; 2; 3]; [3; 2; 1; 0]; [0; 1; 3; 2]; [3; 2; 0; 1]] []).
Proof.
  intros H1 H2 Hnd Hperm HL. split_and!.
  - intros h s'. unfold cruce.
    intros (a & s1 & [Ha <-]%deref_Ok & H)%bind_Ok.
    apply bind_Ok in H as (b & s2 & [Hb <-]%deref_Ok & H).
    apply bind_Ok in H as (p & s3 & Hp & _).
    apply random_randint_Ok in Hp as (Hp & t & Ht & _).
    assert (a = p1) as -> by congruence. eauto.
  - intros p t Ht Hp hijo1 hijo2. split_and!.
    + unfold cruce.
      rewrite (bind_run (deref padre1) _ s p1 s) by by apply deref_Ok.
      rewrite (bind_run (deref padre2) _ s p2 s) by by apply deref_Ok.
      assert (Hr : random_randint 1 (Z.of_nat (length p1) - 1) s
                   = Ok (Z.of_nat p) (State (heap s) t)).
      { apply random_randint_Ok. split; [lia|eauto]. }
      rewrite (bind_run _ _ _ _ _ Hr). rewrite Nat2Z.id.
      rewrite (bind_run (alloc _) _ _ _ _ eq_refl).
      rewrite (bind_run (alloc _) _ _ _ _ eq_refl).
      unfold mret, M_ret. cbn [heap tape].
      rewrite length_app, <- app_assoc. simpl.
      by replace (length (heap s) + 1) with (S (length (heap s))) by lia.
    + by apply hijo_de_permutacion.
    + apply hijo_de_permutacion; [by rewrite <- Hperm|done].
    + eapply NoDup_Permutation_proper; [by apply hijo_de_permutacion|done].
    + assert (Hnd2 : NoDup p2) by by rewrite <- Hperm.
      eapply NoDup_Permutation_proper; [by apply hijo_de_permutacion|done].
  - reflexivity.
Qed.

Lemma cruce_spec_witness :
  cruce 1 0 (State [[4; 0; 3; 1; 2]; [0; 1; 2; 3; 4]] [DInt 3; DUnit 0])
  = Ok (2, 3) (State ([[4; 0; 3; 1; 2]; [0; 1; 2; 3; 4]]
                        ++ [[0; 1; 2; 4; 3]; [4; 0; 3; 1; 2]]) [DUnit 0])
  ∧ [0; 1; 2; 4; 3] ≡ₚ [0; 1; 2; 3; 4]
  ∧ [4; 0; 3; 1; 2] ≡ₚ [4; 0; 3; 1; 2]
  ∧ NoDup [0; 1; 2; 4; 3] ∧ NoDup [4; 0; 3; 1; 2].
Proof.
  refine (proj1 (proj2 (cruce_spec 1 0 [0; 1; 2; 3; 4] [4; 0; 3; 1; 2]
    (State [[4; 0; 3; 1; 2]; [0; 1; 2; 3; 4]] [DInt 3; DUnit 0]) _ _ _ _ _))
    3 [DUnit 0] _ _).
  - reflexivity.
  - reflexivity.
  - compute_done.
  - apply NoDup_Permutation; [compute_done..|].
    intros x. rewrite !elem_of_cons, !elem_of_nil. lia.
  - simpl. lia.
  - reflexivity.
  - simpl. lia.
Defined.

(** ** Mutation *)

Lemma intercambiar_spec (i1 i2 : nat) (l : list nat) :
  i1 ≠ i2 → i1 < length l → i2 < length l →
  ∃ l', intercambiar i1 i2 l = Some l'
        ∧ l' !! i1 = l !! i2 ∧ l' !! i2 = l !! i1
        ∧ (∀ k, k ≠ i1 → k ≠ i2 → l' !! k = l !! k)
        ∧ length l' = length l ∧ l' ≡ₚ l.
Proof.
  intros Hne Hi1 Hi2. unfold intercambiar.
  destruct (lookup_lt_is_Some_2 l i1 Hi1) as [v1 Hv1].
  destruct (lookup_lt_is_Some_2 l i2 Hi2) as [v2 Hv2].
  rewrite Hv1, Hv2. simpl. eexists. split; [done|]. split_and!.
  - rewrite list_lookup_insert_ne by done.
    by rewrite list_lookup_insert_eq.
  - rewrite list_lookup_insert_eq; [done|]. by rewrite length_insert.
  - intros k Hk1 Hk2. by rewrite !list_lookup_insert_ne.
  - by rewrite !length_insert.
  - by apply Permutation_insert_swap.
Qed.

Lemma mutacion_Ok (individuo r : loc) (s s' : state) :
  mutacion individuo s = Ok r s' →
  ∃ (l l' : list nat) (i1 i2 : nat) (t : list draw),
    heap s !! individuo = Some l ∧ tape s = DSample [i1; i2] :: t
    ∧ i1 ≠ i2 ∧ i1 < length l ∧ i2 < length l
    ∧ intercambiar i1 i2 l = Some l'
    ∧ r = individuo ∧ s' = State (<[individuo:=l']> (heap s)) t.
Proof.
  unfold mutacion.
  intros (l & s1 & [Hl <-]%deref_Ok & H)%bind_Ok.
  apply bind_Ok in H as (indices & s2 & Hs & H).
  apply random_sample_Ok in Hs as (_ & Hlen & Hnd & Hall & t & Ht & ->).
  destruct indices as [|i1 [|i2 [|]]]; try done.
  apply bind_Ok in H as (l' & s3 & [Hsw <-]%try_Ok & H).
  apply bind_Ok in H as ([] & s4 & Hst & [<- <-]%ret_Ok).
  unfold store in Hst. injection Hst as <-. cbn [heap tape].
  apply list.NoDup_cons in Hnd as [Hne _].
  apply list.Forall_cons in Hall as [Hi1 [Hi2 _]%list.Forall_cons].
  exists l, l', i1, i2, t. split_and!; try done.
  intros ->. apply Hne. left.
Qed.

(** C8. On an individual of length at least 2, mutation draws two distinct
    positions, exchanges the items found there and leaves every other
    position as it was: the individual is updated in place, keeps its length
    and is a permutation of what it was. *)
Theorem mutacion_transposicion (individuo : loc) (l : list nat) (s : state) :
  heap s !! individuo = Some l → 2 ≤ length l →
  (∀ r s', mutacion individuo s = Ok r s' →
     ∃ (i1 i2 : nat) (t : list draw),
       tape s = DSample [i1; i2] :: t
       ∧ i1 ≠ i2 ∧ i1 < length l ∧ i2 < length l)
  ∧ (∀ (i1 i2 : nat) (t : list draw),
       tape s = DSample [i1; i2] :: t →
       i1 ≠ i2 → i1 < length l → i2 < length l →
       ∃ l' : list nat,
         mutacion individuo s
         = Ok individuo (State (<[individuo:=l']> (heap s)) t)
         ∧ l' !! i1 = l !! i2 ∧ l' !! i2 = l !! i1
         ∧ (∀ k, k ≠ i1 → k ≠ i2 → l' !! k = l !! k)
         ∧ length l' = length l ∧ l' ≡ₚ l).
Proof.
  intros Hl Hlen. split.
  - intros r s' H.
    apply mutacion_Ok in H as (l0 & l' & i1 & i2 & t & Hl0 & Ht & ? & ? & ? & _).
    assert (l0 = l) as -> by congruence. by exists i1, i2, t.
  - intros i1 i2 t Ht Hne Hi1 Hi2.
    destruct (intercambiar_spec i1 i2 l Hne Hi1 Hi2) as (l' & Hsw & Hprops).
    exists l'. split; [|done]. unfold mutacion.
    rewrite (bind_run (deref individuo) _ s l s) by by apply deref_Ok.
    assert (Hs : random_sample (length l) 2 s = Ok [i1; i2] (State (heap s) t)).
    { apply random_sample_Ok. split_and!; [lia|done| | |eauto].
      - apply list.NoDup_cons. split; [by intros ->%list_elem_of_singleton|].
        apply NoDup_singleton.
      - by repeat constructor. }
    rewrite (bind_run _ _ _ _ _ Hs). rewrite Hsw.
    by rewrite (bind_run (try (Some l')) _ _ l' _ eq_refl).
Qed.

Lemma mutacion_transposicion_witness :
  ∃ l' : list nat,
    mutacion 1 (State [[0; 1; 2]; [3; 1; 0; 2]] [DSample [3; 0]; DUnit 0])
    = Ok 1 (State (<[1:=l']> [[0; 1; 2]; [3; 1; 0; 2]]) [DUnit 0])
    ∧ l' !! 3 = [3; 1; 0; 2] !! 0 ∧ l' !! 0 = [3; 1; 0; 2] !! 3
    ∧ (∀ k, k ≠ 3 → k ≠ 0 → l' !! k = [3; 1; 0; 2] !! k)
    ∧ length l' = length [3; 1; 0; 2] ∧ l' ≡ₚ [3; 1; 0; 2].
Proof.
  refine (proj2 (mutacion_transposicion 1 [3; 1; 0; 2]
    (State [[0; 1; 2]; [3; 1; 0; 2]] [DSample [3; 0]; DUnit 0]) _ _)
    3 0 [DUnit 0] _ _ _ _).
  - reflexivity.
  - simpl. lia.
  - reflexivity.
  - lia.
  - simpl. lia.
  - simpl. lia.
Defined.

(** ** Permutations are preserved *)

Lemma es_permutacion_Permutation (N : nat) (l : list nat) :
  es_permutacion N l ↔ l ≡ₚ seq 0 N.
Proof.
  unfold es_permutacion. split.
  - intros [Hnd Hin]. apply NoDup_Permutation; [done|apply NoDup_seq|].
    intros x. rewrite Hin, elem_of_seq. lia.
  - intros Hp. split.
    + rewrite Hp. apply NoDup_seq.
    + intros x. rewrite Hp, elem_of_seq. lia.
Qed.

Lemma es_permutacion_perm (N : nat) (l l' : list nat) :
  l' ≡ₚ l → es_permutacion N l → es_permutacion N l'.
Proof. rewrite !es_permutacion_Permutation. by intros ->. Qed.

Lemma es_permutacion_seq (N : nat) : es_permutacion N (seq 0 N).
Proof. by apply es_permutacion_Permutation. Qed.

Lemma conserva_refl (N : nat) (h : list (list nat)) : conserva N h h.
Proof. by intros r. Qed.

Lemma conserva_trans (N : nat) (h1 h2 h3 : list (list nat)) :
  conserva N h1 h2 → conserva N h2 h3 → conserva N h1 h3.
Proof. intros H12 H23 r Hr. by apply H23, H12. Qed.

Lemma conserva_app (N : nat) (h k : list (list nat)) : conserva N h (h ++ k).
Proof.
  intros r (l & Hl & Hp). exists l. split; [|done]. by apply lookup_app_l_Some.
Qed.

Lemma candidato_nuevo (N : nat) (h : list (list nat)) (l : list nat) :
  es_permutacion N l → candidato N (h ++ [l]) (length h).
Proof. intros Hp. exists l. split; [|done]. by apply list_lookup_middle. Qed.

Lemma conserva_insert (N : nat) (h : list (list nat)) (r : loc) (l l' : list nat) :
  h !! r = Some l → l' ≡ₚ l → conserva N h (<[r:=l']> h).
Proof.
  intros Hl Hperm r0 (l0 & Hl0 & Hp). destruct (decide (r0 = r)) as [->|Hne].
  - exists l'. split.
    + apply list_lookup_insert_eq. by eapply lookup_lt_Some.
    + apply (es_permutacion_perm N l); [done|]. congruence.
  - exists l0. split; [|done]. by rewrite list_lookup_insert_ne.
Qed.

Lemma poblacion_valida_conserva (N : nat) (h h' : list (list nat))
    (poblacion : list loc) :
  conserva N h h' → poblacion_valida N h poblacion → poblacion_valida N h' poblacion.
Proof. intros Hc. unfold poblacion_valida. apply Forall_impl. exact Hc. Qed.

Lemma seleccion_torneo_candidato (N : nat) (poblacion : list loc)
    (fitness : list Q) (k : nat) (r : loc) (s s' : state) :
  poblacion_valida N (heap s) poblacion →
  seleccion_torneo poblacion fitness k s = Ok r s' →
  conserva N (heap s) (heap s') ∧ candidato N (heap s') r.
Proof.
  intros Hpob H.
  apply seleccion_torneo_Ok in H
    as (_ & torneo & t & g & r0 & l & _ & _ & Hr0 & Hl & -> & ->).
  cbn [heap]. split; [apply conserva_app|]. apply candidato_nuevo.
  unfold poblacion_valida in Hpob. rewrite Forall_lookup in Hpob.
  destruct (Hpob _ _ Hr0) as (l0 & Hl0 & Hp). congruence.
Qed.

Lemma copy_candidato (N : nat) (r r' : loc) (s s' : state) :
  candidato N (heap s) r → copy r s = Ok r' s' →
  conserva N (heap s) (heap s') ∧ candidato N (heap s') r'.
Proof.
  intros (l0 & Hl0 & Hp) (l & Hl & -> & ->)%copy_Ok. cbn [heap].
  split; [apply conserva_app|]. apply candidato_nuevo. congruence.
Qed.

Lemma cruce_Ok (padre1 padre2 : loc) (h : loc * loc) (s s' : state) :
  cruce padre1 padre2 s = Ok h s' →
  ∃ (p1 p2 : list nat) (p : nat) (t : list draw),
    heap s !! padre1 = Some p1 ∧ heap s !! padre2 = Some p2
    ∧ tape s = DInt (Z.of_nat p) :: t ∧ 1 ≤ p ≤ length p1 - 1
    ∧ h = (length (heap s), S (length (heap s)))
    ∧ s' = State (heap s ++ [hijo_de p p1 p2; hijo_de p p2 p1]) t.
Proof.
  unfold cruce.
  intros (p1 & s1 & [H1 <-]%deref_Ok & H)%bind_Ok.
  apply bind_Ok in H as (p2 & s2 & [H2 <-]%deref_Ok & H).
  apply bind_Ok in H as (z & s3 & Hz & H).
  apply random_randint_Ok in Hz as (Hz & t & Ht & ->).
  apply bind_Ok in H as (h1 & s4 & [-> ->]%alloc_Ok & H).
  apply bind_Ok in H as (h2 & s5 & [-> ->]%alloc_Ok & [<- <-]%ret_Ok).
  cbn [heap tape]. exists p1, p2, (Z.to_nat z), t.
  rewrite Z2Nat.id by lia. split_and!; [done|done|done|lia|lia| |].
  - rewrite length_app. simpl. f_equal. lia.
  - by rewrite <- app_assoc.
Qed.

Lemma cruce_candidato (N : nat) (padre1 padre2 hijo1 hijo2 : loc) (s s' : state) :
  candidato N (heap s) padre1 → candidato N (heap s) padre2 →
  cruce padre1 padre2 s = Ok (hijo1, hijo2) s' →
  conserva N (heap s) (heap s')
  ∧ candidato N (heap s') hijo1 ∧ candidato N (heap s') hijo2.
Proof.
  intros (l1 & Hl1 & Hp1) (l2 & Hl2 & Hp2) H.
  apply cruce_Ok in H as (p1 & p2 & p & t & H1 & H2 & _ & _ & Hh & ->).
  injection Hh as -> ->. cbn [heap].
  assert (p1 = l1) as -> by congruence. assert (p2 = l2) as -> by congruence.
  assert (Hperm : l1 ≡ₚ l2).
  { apply es_permutacion_Permutation in Hp1, Hp2. by rewrite Hp1, Hp2. }
  split_and!; [apply conserva_app| |].
  - exists (hijo_de p l1 l2). split.
    + by apply list_lookup_middle.
    + apply (es_permutacion_perm N l1); [|done].
      apply hijo_de_permutacion; [apply Hp1|done].
  - exists (hijo_de p l2 l1). split.
    + rewrite lookup_app_r by lia.
      by replace (S (length (heap s)) - length (heap s)) with 1 by lia.
    + apply (es_permutacion_perm N l2); [|done].
      apply hijo_de_permutacion; [apply Hp2|done].
Qed.

Lemma mutacion_candidato (N : nat) (individuo r : loc) (s s' : state) :
  candidato N (heap s) individuo → mutacion individuo s = Ok r s' →
  conserva N (heap s) (heap s') ∧ candidato N (heap s') r.
Proof.
  intros Hc H.
  apply mutacion_Ok in H
    as (l & l' & i1 & i2 & t & Hl & _ & Hne & Hi1 & Hi2 & Hsw & -> & ->).
  cbn [heap].
  destruct (intercambiar_spec i1 i2 l Hne Hi1 Hi2) as (l'' & Hsw' & _ & _ & _ & _ & Hperm).
  assert (l'' = l') as -> by congruence.
  assert (Hcons : conserva N (heap s) (<[individuo:=l']> (heap s))).
  { by apply (conserva_insert N _ _ l). }
  split; [done|]. by apply Hcons.
Qed.

Lemma random_random_heap (q : Q) (s s' : state) :
  random_random s = Ok q s' → heap s' = heap s.
Proof. by intros (t & _ & ->)%random_random_Ok. Qed.

(** ** The reproduction loop *)

Lemma hijos_candidatos (N : nat) (b : bool) (padre1 padre2 : loc) (h : loc * loc)
    (s s' : state) :
  candidato N (heap s) padre1 → candidato N (heap s) padre2 →
  (if b then cruce padre1 padre2
   else h1 ← copy padre1; h2 ← copy padre2; mret (h1, h2)) s = Ok h s' →
  conserva N (heap s) (heap s')
  ∧ candidato N (heap s') h.1 ∧ candidato N (heap s') h.2.
Proof.
  intros Hc1 Hc2 H. destruct b.
  - destruct h as [h1 h2]. by apply (cruce_candidato N padre1 padre2).
  - apply bind_Ok in H as (h1 & s1 & Hcp1 & H).
    apply bind_Ok in H as (h2 & s2 & Hcp2 & [<- <-]%ret_Ok).
    destruct (copy_candidato N _ _ _ _ Hc1 Hcp1) as [Hk1 Hh1].
    destruct (copy_candidato N _ _ _ _ (Hk1 _ Hc2) Hcp2) as [Hk2 Hh2].
    split_and!; [by eapply conserva_trans|by apply Hk2|done].
Qed.

Lemma mutar_candidato (N : nat) (b : bool) (hijo n : loc) (s s' : state) :
  candidato N (heap s) hijo →
  (if b then mutacion hijo else mret hijo) s = Ok n s' →
  conserva N (heap s) (heap s') ∧ candidato N (heap s') n.
Proof.
  intros Hc H. destruct b.
  - by apply (mutacion_candidato N hijo).
  - apply ret_Ok in H as [<- <-]. split; [apply conserva_refl|done].
Qed.

Section Bucle.
Variable preferencias : list (list Z).
Variable tamanos : list Z.

Lemma evaluar_Ok (r : loc) (q : Q) (s s' : state) :
  evaluar preferencias tamanos r s = Ok q s' →
  s' = s ∧ ∃ l, heap s !! r = Some l
                ∧ evaluar_solucion l preferencias tamanos = Some q.
Proof.
  unfold evaluar.
  intros (l & s1 & [Hl <-]%deref_Ok & [Hq <-]%try_Ok)%bind_Ok. eauto.
Qed.

Lemma mapM_evaluar_Ok (poblacion : list loc) (fitness : list Q) (s s' : state) :
  mapM (evaluar preferencias tamanos) poblacion s = Ok fitness s' →
  s' = s ∧ length fitness = length poblacion.
Proof.
  revert fitness s'.
  induction poblacion as [|r pob IH]; intros fitness s'; cbn [mapM].
  - by intros [<- <-]%ret_Ok.
  - intros (q & s1 & [-> _]%evaluar_Ok & H)%bind_Ok.
    apply bind_Ok in H as (fit & s2 & [-> Hlen]%IH & [<- <-]%ret_Ok).
    simpl. by rewrite Hlen.
Qed.

(** One pass through the body of the [while] loop. *)
Lemma reproducir_paso (fuel : nat) (poblacion : list loc) (fitness : list Q)
    (nueva res : list loc) (s s' : state) :
  length nueva < length poblacion →
  reproducir (S fuel) poblacion fitness nueva s = Ok res s' →
  ∃ padre1 s1 padre2 s2 u s3 h s4 u1 s5 n1 s6 u2 s7 n2 s8,
    seleccion_torneo poblacion fitness 3 s = Ok padre1 s1
    ∧ seleccion_torneo poblacion fitness 3 s1 = Ok padre2 s2
    ∧ random_random s2 = Ok u s3
    ∧ (if Qltb u PROBABILIDAD_CRUCE then cruce padre1 padre2
       else h1 ← copy padre1; h2 ← copy padre2; mret (h1, h2)) s3 = Ok h s4
    ∧ random_random s4 = Ok u1 s5
    ∧ (if Qltb u1 PROBABILIDAD_MUTACION then mutacion h.1 else mret h.1) s5
      = Ok n1 s6
    ∧ random_random s6 = Ok u2 s7
    ∧ (if Qltb u2 PROBABILIDAD_MUTACION then mutacion h.2 else mret h.2) s7
      = Ok n2 s8
    ∧ reproducir fuel poblacion fitness (nueva ++ [n1; n2]) s8
      = Ok res s'.
Proof.
  intros Hlt H. cbn [reproducir] in H. rewrite decide_True in H by done.
  apply bind_Ok in H as (padre1 & s1 & H1 & H).
  apply bind_Ok in H as (padre2 & s2 & H2 & H).
  apply bind_Ok in H as (u & s3 & H3 & H).
  apply bind_Ok in H as ([hijo1 hijo2] & s4 & H4 & H).
  apply bind_Ok in H as (u1 & s5 & H5 & H).
  apply bind_Ok in H as (n1 & s6 & H6 & H).
  apply bind_Ok in H as (u2 & s7 & H7 & H).
  apply bind_Ok in H as (n2 & s8 & H8 & H).
  exists padre1, s1, padre2, s2, u, s3, (hijo1, hijo2), s4, u1, s5, n1, s6,
    u2, s7, n2, s8. done.
Qed.

Lemma reproducir_candidatos (N : nat) (fuel : nat) (poblacion : list loc)
    (fitness : list Q) (nueva res : list loc) (s s' : state) :
  poblacion_valida N (heap s) poblacion → poblacion_valida N (heap s) nueva →
  reproducir fuel poblacion fitness nueva s = Ok res s' →
  conserva N (heap s) (heap s') ∧ poblacion_valida N (heap s') res.
Proof.
  revert nueva s. induction fuel as [|fuel IH]; intros nueva s Hpob Hnueva H.
  - cbn [reproducir] in H. destruct (decide _); [done|].
    apply ret_Ok in H as [<- <-]. split; [apply conserva_refl|done].
  - destruct (decide (length nueva < length poblacion)) as [Hlt|Hge].
    2:{ cbn [reproducir] in H. rewrite decide_False in H by done.
        apply ret_Ok in H as [<- <-]. split; [apply conserva_refl|done]. }
    apply reproducir_paso in H
      as (padre1 & s1 & padre2 & s2 & u & s3 & [hijo1 hijo2] & s4 & u1 & s5
          & n1 & s6 & u2 & s7 & n2 & s8
          & H1 & H2 & H3 & H4 & H5 & H6 & H7 & H8 & H); [|done].
    cbn [fst snd] in *.
    destruct (seleccion_torneo_candidato N _ _ _ _ _ _ Hpob H1) as [K1 Hp1].
    assert (Hpob1 := poblacion_valida_conserva N _ _ _ K1 Hpob).
    destruct (seleccion_torneo_candidato N _ _ _ _ _ _ Hpob1 H2) as [K2 Hp2].
    apply random_random_heap in H3.
    assert (Hp1' : candidato N (heap s3) padre1) by (rewrite H3; by apply K2).
    assert (Hp2' : candidato N (heap s3) padre2) by by rewrite H3.
    destruct (hijos_candidatos N _ _ _ _ _ _ Hp1' Hp2' H4) as (K4 & Hh1 & Hh2).
    cbn [fst snd] in *.
    apply random_random_heap in H5.
    assert (Hh1' : candidato N (heap s5) hijo1) by by rewrite H5.
    destruct (mutar_candidato N _ _ _ _ _ Hh1' H6) as [K6 Hn1].
    apply random_random_heap in H7.
    assert (Hh2' : candidato N (heap s7) hijo2).
    { rewrite H7. apply K6. by rewrite H5. }
    destruct (mutar_candidato N _ _ _ _ _ Hh2' H8) as [K8 Hn2].
    rewrite H3 in K4. rewrite H5 in K6. rewrite H7 in K8.
    assert (K : conserva N (heap s) (heap s8)).
    { repeat (eapply conserva_trans; [eassumption|]). apply conserva_refl. }
    destruct (IH (nueva ++ [n1; n2]) s8) as [K' Hres]; [| |done|].
    + by apply (poblacion_valida_conserva N (heap s)).
    + apply Forall_app. split.
      * by apply (poblacion_valida_conserva N (heap s)).
      * repeat constructor; [by apply K8|done].
    + split; [by eapply conserva_trans|done].
Qed.

Lemma reproducir_length (fuel : nat) (poblacion : list loc) (fitness : list Q)
    (nueva res : list loc) (s s' : state) :
  reproducir fuel poblacion fitness nueva s = Ok res s' →
  ∃ k, length res = length nueva + 2 * k
       ∧ length poblacion ≤ length res
       ∧ (length res < length poblacion + 2 ∨ k = 0).
Proof.
  revert nueva s. induction fuel as [|fuel IH]; intros nueva s H.
  - cbn [reproducir] in H. destruct (decide _); [done|].
    apply ret_Ok in H as [<- <-]. exists 0. lia.
  - destruct (decide (length nueva < length poblacion)) as [Hlt|Hge].
    2:{ cbn [reproducir] in H. rewrite decide_False in H by done.
        apply ret_Ok in H as [<- <-]. exists 0. lia. }
    apply reproducir_paso in H
      as (padre1 & s1 & padre2 & s2 & u & s3 & h & s4 & u1 & s5
          & n1 & s6 & u2 & s7 & n2 & s8 & _ & _ & _ & _ & _ & _ & _ & _ & H);
      [|done].
    apply IH in H as (k & Hk & Hle & Hstop).
    rewrite length_app in Hk. simpl in Hk. exists (S k). lia.
Qed.
End Bucle.

(** ** The loop has fuel enough *)

Lemma cc_bind {A B} (m : M A) (f : A → M B) :
  con_combustible m → (∀ a, con_combustible (f a)) → con_combustible (m ≫= f).
Proof.
  intros Hm Hf s. unfold mbind, M_bind. specialize (Hm s).
  destruct (m s); try done. apply Hf.
Qed.

Lemma cc_ret {A} (a : A) : con_combustible (mret a : M A).
Proof. by intros s. Qed.

Lemma cc_raise {A} (e : exn) : con_combustible (raise e : M A).
Proof. by intros s. Qed.

Lemma cc_invalid {A} : con_combustible (invalid : M A).
Proof. by intros s. Qed.

Lemma cc_try {A} (o : option A) : con_combustible (try o).
Proof. destruct o; [apply cc_ret|apply cc_raise]. Qed.

Lemma cc_deref (r : loc) : con_combustible (deref r).
Proof. intros s. unfold deref. by destruct (heap s !! r). Qed.

Lemma cc_alloc (l : list nat) : con_combustible (alloc l).
Proof. by intros s. Qed.

Lemma cc_store (r : loc) (l : list nat) : con_combustible (store r l).
Proof. by intros s. Qed.

Lemma cc_next_draw : con_combustible next_draw.
Proof. intros s. unfold next_draw. by destruct (tape s). Qed.

Create HintDb cc.
#[local] Hint Resolve cc_ret cc_raise cc_invalid cc_try cc_deref cc_alloc
  cc_store cc_next_draw : cc.

Ltac cc_paso :=
  repeat first
    [ apply cc_bind; [|intros ?]
    | progress auto with cc
    | match goal with
      | |- con_combustible (if ?b then _ else _) => destruct b
      | |- con_combustible (match ?d with _ => _ end) => destruct d
      end ].

Lemma cc_random_sample (n k : nat) : con_combustible (random_sample n k).
Proof. unfold random_sample. cc_paso. Qed.

Lemma cc_random_randint (a b : Z) : con_combustible (random_randint a b).
Proof. unfold random_randint. cc_paso. Qed.

Lemma cc_random_random : con_combustible random_random.
Proof. unfold random_random. cc_paso. Qed.

Lemma cc_min_key_from (l : list nat) (key : nat → option Q) (best : nat) (kbest : Q) :
  con_combustible (min_key_from l key best kbest).
Proof.
  revert best kbest. induction l as [|x l IH]; intros best kbest; simpl.
  - apply cc_ret.
  - apply cc_bind; [apply cc_try|]. intros kx. destruct (Qltb kx kbest); apply IH.
Qed.

Lemma cc_min_key (l : list nat) (key : nat → option Q) :
  con_combustible (min_key l key).
Proof.
  destruct l; simpl; [apply cc_raise|].
  apply cc_bind; [apply cc_try|]. intros kx. apply cc_min_key_from.
Qed.

#[local] Hint Resolve cc_random_sample cc_random_randint cc_random_random
  cc_min_key : cc.

Lemma cc_copy (r : loc) : con_combustible (copy r).
Proof. unfold copy. cc_paso. Qed.

#[local] Hint Resolve cc_copy : cc.

Lemma cc_seleccion_torneo (poblacion : list loc) (fitness : list Q) (k : nat) :
  con_combustible (seleccion_torneo poblacion fitness k).
Proof. unfold seleccion_torneo, item. cc_paso. Qed.

Lemma cc_cruce (padre1 padre2 : loc) : con_combustible (cruce padre1 padre2).
Proof. unfold cruce. cc_paso. Qed.

Lemma cc_mutacion (individuo : loc) : con_combustible (mutacion individuo).
Proof.
  unfold mutacion. apply cc_bind; [apply cc_deref|]. intros l.
  apply cc_bind; [apply cc_random_sample|]. intros indices.
  destruct indices as [|i1 [|i2 [|]]]; cc_paso.
Qed.

#[local] Hint Resolve cc_seleccion_torneo cc_cruce cc_mutacion : cc.

Lemma cc_reproducir (fuel : nat) (poblacion : list loc) (fitness : list Q)
    (nueva : list loc) :
  length poblacion ≤ length nueva + fuel →
  con_combustible (reproducir fuel poblacion fitness nueva).
Proof.
  revert nueva. induction fuel as [|fuel IH]; intros nueva Hfuel;
    cbn [reproducir]; destruct (decide _) as [Hlt|Hge]; try apply cc_ret.
  - lia.
  - do 3 (apply cc_bind; [auto with cc|intros ?]).
    apply cc_bind; [destruct (Qltb _ _); cc_paso|]. intros [hijo1 hijo2].
    do 4 (apply cc_bind; [try destruct (Qltb _ _); auto with cc|intros ?]).
    apply IH. rewrite length_app. simpl. lia.
Qed.

Lemma cc_mapM {A B} (f : A → M B) (l : list A) :
  (∀ x, con_combustible (f x)) → con_combustible (mapM f l).
Proof.
  intros Hf. induction l as [|x l IH]; cbn [mapM]; [apply cc_ret|].
  apply cc_bind; [apply Hf|]. intros y.
  apply cc_bind; [apply IH|]. intros k. apply cc_ret.
Qed.

Lemma cc_generacion (preferencias : list (list Z)) (tamanos : list Z)
    (poblacion : list loc) :
  con_combustible (generacion preferencias tamanos poblacion).
Proof.
  unfold generacion. apply cc_bind.
  - apply cc_mapM. intros r. unfold evaluar. cc_paso.
  - intros fitness. apply cc_bind; [|intros ?; apply cc_ret].
    apply cc_reproducir. simpl. lia.
Qed.

(** ** Generations *)

Lemma generacion_Ok (preferencias : list (list Z)) (tamanos : list Z)
    (poblacion nueva : list loc) (fitness : list Q) (s s' : state) :
  generacion preferencias tamanos poblacion s = Ok (nueva, fitness) s' →
  mapM (evaluar preferencias tamanos) poblacion s = Ok fitness s
  ∧ reproducir (length poblacion) poblacion fitness [] s = Ok nueva s'.
Proof.
  unfold generacion. intros (fit & s1 & Hfit & H)%bind_Ok.
  apply bind_Ok in H as (nueva' & s2 & Hrep & [Heq <-]%ret_Ok).
  injection Heq as -> ->.
  destruct (mapM_evaluar_Ok _ _ _ _ _ _ Hfit) as [-> _]. done.
Qed.

(** C9. The reproduction loop of a generation appends children two at a
    time and stops as soon as the new population is at least as large as the
    old one: the new population has the size [M] of the old one when [M] is
    even and [M + 1] when [M] is odd, so it never grows by more than one.  The
    loop always ends: the fuel of the model is never exhausted. *)
Theorem generacion_tamano (preferencias : list (list Z)) (tamanos : list Z)
    (poblacion : list loc) (s : state) :
  generacion preferencias tamanos poblacion s ≠ OutOfFuel
  ∧ ∀ nueva fitness s',
      generacion preferencias tamanos poblacion s = Ok (nueva, fitness) s' →
      (∃ k, length nueva = 2 * k)
      ∧ (Nat.Even (length poblacion) → length nueva = length poblacion)
      ∧ (Nat.Odd (length poblacion) → length nueva = S (length poblacion))
      ∧ length poblacion ≤ length nueva ≤ S (length poblacion).
Proof.
  split; [apply cc_generacion|].
  intros nueva fitness s' [_ H]%generacion_Ok.
  apply reproducir_length in H as (k & Hk & Hle & Hstop). simpl in Hk.
  split_and!.
  - by exists k.
  - intros [m Hm]. lia.
  - intros [m Hm]. lia.
  - lia.
  - lia.
Qed.

Lemma generacion_tamano_witness :
  ∃ nueva fitness s',
    generacion preferencias_ej tamanos_ej [0; 1; 2]
      (State (replicate 3 (seq 0 6)) (paso_cruzado ++ paso_quieto))
    = Ok (nueva, fitness) s'
    ∧ length nueva = 4.
Proof.
  eexists _, _, _. split; [vm_compute; reflexivity|].
  refine (proj1 (proj2 (proj2 (proj2 (generacion_tamano preferencias_ej tamanos_ej
    [0; 1; 2] (State (replicate 3 (seq 0 6)) (paso_cruzado ++ paso_quieto)))
    _ _ _ _))) _).
  - vm_compute. reflexivity.
  - exists 1. reflexivity.
Defined.

Lemma inicializar_poblacion_valida (num_puestos : Z) (poblacion : list loc)
    (s s' : state) :
  inicializar_poblacion num_puestos s = Ok poblacion s' →
  poblacion_valida (Z.to_nat num_puestos) (heap s') poblacion.
Proof.
  unfold inicializar_poblacion. cbv zeta. rewrite mapM_alloc.
  intros [= <- <-]. cbn [heap]. apply list.Forall_forall. intros r Hr.
  apply elem_of_seq in Hr. exists (seq 0 (Z.to_nat num_puestos)). split.
  - rewrite lookup_app_r by lia. rewrite lookup_replicate. split; [|lia].
    unfold range. f_equal. lia.
  - apply es_permutacion_seq.
Qed.

Lemma generacion_candidatos (preferencias : list (list Z)) (tamanos : list Z)
    (N : nat) (poblacion nueva : list loc) (fitness : list Q) (s s' : state) :
  poblacion_valida N (heap s) poblacion →
  generacion preferencias tamanos poblacion s = Ok (nueva, fitness) s' →
  conserva N (heap s) (heap s') ∧ poblacion_valida N (heap s') nueva.
Proof.
  intros Hpob [_ H]%generacion_Ok.
  apply (reproducir_candidatos N) in H; [done..|]. constructor.
Qed.

Lemma evolucionar_candidatos (preferencias : list (list Z)) (tamanos : list Z)
    (N : nat) (g : nat) (poblacion final : list loc)
    (fitness fitness' : option (list Q)) (s s' : state) :
  poblacion_valida N (heap s) poblacion →
  evolucionar preferencias tamanos g poblacion fitness s = Ok (final, fitness') s' →
  poblacion_valida N (heap s') final.
Proof.
  revert poblacion fitness s. induction g as [|g IH]; intros poblacion fitness s Hpob H.
  - cbn [evolucionar] in H. apply ret_Ok in H as [Heq <-]. by injection Heq as <- _.
  - cbn [evolucionar] in H. apply bind_Ok in H as ([nueva fit] & s1 & Hgen & H).
    apply (IH nueva (Some fit) s1); [|done].
    by apply (generacion_candidatos preferencias tamanos N poblacion nueva fit s s1).
Qed.

Lemma extraer_mejor_Ok (preferencias : list (list Z)) (tamanos : list Z)
    (poblacion : list loc) (fitness : option (list Q)) (orden : list nat) (c : Q)
    (s s' : state) :
  extraer_mejor preferencias tamanos poblacion fitness s = Ok (orden, c) s' →
  ∃ (fit : list Q) (idx : nat) (mejor : loc),
    fitness = Some fit ∧ argmin fit s = Ok idx s
    ∧ poblacion !! idx = Some mejor ∧ heap s !! mejor = Some orden
    ∧ evaluar_solucion orden preferencias tamanos = Some c ∧ s' = s.
Proof.
  unfold extraer_mejor. intros (fit & s1 & Hfit & H)%bind_Ok.
  destruct fitness as [fit0|]; [|done]. apply ret_Ok in Hfit as [-> <-].
  apply bind_Ok in H as (idx & s2 & Hidx & H).
  assert (s2 = s) as ->.
  { destruct fit; [done|]. by apply ret_Ok in Hidx as [_ <-]. }
  apply bind_Ok in H as (mejor & s3 & [Hm <-]%try_Ok & H).
  apply bind_Ok in H as (l & s4 & [Hl <-]%deref_Ok & H).
  apply bind_Ok in H as (q & s5 & [Hq <-]%try_Ok & [Heq <-]%ret_Ok).
  injection Heq as -> ->. by exists fit, idx, mejor.
Qed.

(** C5. Every candidate of every population is a permutation of [0, N):
    the initializer produces such candidates, a generation step turns a
    population of such candidates into one (and leaves the old candidates as
    they were), so every population reached from the initial one, after any
    number of generations, consists of such candidates, and so does the
    ordering that [main] returns. *)
Theorem permutacion_invariante (preferencias : list (list Z)) (tamanos : list Z)
    (num_puestos : Z) :
  let N := Z.to_nat num_puestos in
  (∀ s poblacion s',
     inicializar_poblacion num_puestos s = Ok poblacion s' →
     poblacion_valida N (heap s') poblacion)
  ∧ (∀ poblacion s nueva fitness s',
       poblacion_valida N (heap s) poblacion →
       generacion preferencias tamanos poblacion s = Ok (nueva, fitness) s' →
       poblacion_valida N (heap s') nueva ∧ poblacion_valida N (heap s') poblacion)
  ∧ (∀ g s poblacion fitness s',
       (p ← inicializar_poblacion num_puestos;
        evolucionar preferencias tamanos g p None) s = Ok (poblacion, fitness) s' →
       poblacion_valida N (heap s') poblacion)
  ∧ (∀ s orden c s',
       main preferencias tamanos num_puestos s = Ok (orden, c) s' →
       es_permutacion N orden).
Proof.
  intros N. split_and!.
  - intros s poblacion s'. apply inicializar_poblacion_valida.
  - intros poblacion s nueva fitness s' Hpob H.
    destruct (generacion_candidatos _ _ N _ _ _ _ _ Hpob H) as [K Hnueva].
    split; [done|]. by apply (poblacion_valida_conserva N (heap s)).
  - intros g s poblacion fitness s' (p & s1 & Hini & H)%bind_Ok.
    apply inicializar_poblacion_valida in Hini.
    by apply (evolucionar_candidatos preferencias tamanos N g p poblacion None
                fitness s1 s').
  - intros s orden c s'. unfold main. cbv zeta.
    intros (p & s1 & Hini & H)%bind_Ok.
    apply bind_Ok in H as ([poblacion fitness] & s2 & Hev & H).
    apply inicializar_poblacion_valida in Hini.
    apply (evolucionar_candidatos preferencias tamanos N) in Hev; [|done].
    apply extraer_mejor_Ok in H as (fit & idx & mejor & _ & _ & Hm & Hl & _ & _).
    unfold poblacion_valida in Hev. rewrite Forall_lookup in Hev.
    destruct (Hev _ _ Hm) as (l & Hl' & Hp). congruence.
Qed.

Lemma permutacion_invariante_witness :
  ∃ orden c s',
    main preferencias_ej tamanos_ej 6 (State [] cinta_ej) = Ok (orden, c) s'
    ∧ es_permutacion 6 orden.
Proof.
  eexists _, _, _. split; [vm_compute; reflexivity|].
  refine (proj2 (proj2 (proj2 (permutacion_invariante preferencias_ej tamanos_ej 6)))
            (State [] cinta_ej) _ _ _ _).
  vm_compute. reflexivity.
Defined.

(** ** The ordering that [main] reports *)

(** C1 fails on the code.  [main] indexes the final population with the
    argmin of the fitness vector computed at the start of the last
    generation, that is, of the population that the final one replaced.  On
    the worked instance the first child of the last generation is mutated
    from cost 3/2 to cost 4: the stale vector is constant, its argmin is 0,
    and [main] reports that child although the final population holds the
    identity ordering, of cost 3/2. *)
Lemma main_fitness_anterior :
  ∃ (poblacion : list loc) (fitness reales : list Q) (idx : nat) (s' s'' : state)
    (c : Q),
    (p ← inicializar_poblacion 6;
     evolucionar preferencias_ej tamanos_ej NUM_GENERACIONES p None)
      (State [] cinta_ej) = Ok (poblacion, Some fitness) s'
    ∧ fitness_de preferencias_ej tamanos_ej s' poblacion = Some reales
    ∧ Forall2 Qeq fitness [3 # 2; 3 # 2; 3 # 2; 3 # 2]%Q
    ∧ Forall2 Qeq reales [4; 3 # 2; 3 # 2; 3 # 2]%Q
    ∧ argmin fitness s' = Ok idx s' ∧ idx = 0
    ∧ argmin reales s' = Ok 1 s'
    ∧ main preferencias_ej tamanos_ej 6 (State [] cinta_ej)
      = Ok ([5; 1; 2; 3; 4; 0], c) s''
    ∧ (c == 4)%Q
    ∧ ∃ (r : loc) (c' : Q),
        r ∈ poblacion ∧ heap s' !! r = Some [0; 1; 2; 3; 4; 5]
        ∧ evaluar_solucion [0; 1; 2; 3; 4; 5] preferencias_ej tamanos_ej = Some c'
        ∧ (c' < c)%Q.
Proof.
  eexists _, _, _, _, _, _, _. split_and!.
  - vm_compute. reflexivity.
  - vm_compute. reflexivity.
  - repeat constructor.
  - repeat constructor.
  - vm_compute. reflexivity.
  - reflexivity.
  - vm_compute. reflexivity.
  - vm_compute. reflexivity.
  - reflexivity.
  - eexists _, _. split_and!.
    + apply list_elem_of_lookup. exists 1. vm_compute. reflexivity.
    + vm_compute. reflexivity.
    + vm_compute. reflexivity.
    + reflexivity.
Qed.

(** * Further properties of the code *)

(** ** The evaluator sees the stations through their sizes only *)

Lemma distancia_tamano_en (i j : nat) (orden : list nat) (tamanos : list Z) :
  distancia i j orden tamanos
  = Lxi ← tamano_en orden tamanos i;
    Lxj ← tamano_en orden tamanos j;
    medio ← mapM (tamano_en orden tamanos) (range (i + 1) j);
    Some (inject_Z Lxi / 2 + inject_Z (sum medio) + inject_Z Lxj / 2)%Q.
Proof.
  unfold distancia, tamano_en.
  destruct (orden !! i) as [oi|]; simpl; [|done].
  destruct (tamanos !! oi) as [Lxi|]; simpl; [|done].
  by destruct (orden !! j) as [oj|].
Qed.

Lemma distancia_solo_tamanos (i j : nat) (orden orden' : list nat) (tamanos : list Z) :
  (∀ k, tamano_en orden tamanos k = tamano_en orden' tamanos k) →
  distancia i j orden tamanos = distancia i j orden' tamanos.
Proof.
  intros H. rewrite !distancia_tamano_en, !H.
  by rewrite (mapM_ext _ _ _ H).
Qed.

Lemma tamano_en_replicate (orden : list nat) (m : nat) (c : Z) (k : nat) :
  Forall (λ x, x < m) orden →
  tamano_en orden (replicate m c) k = (λ _, c) <$> orden !! k.
Proof.
  intros Hall. unfold tamano_en. destruct (orden !! k) as [ok|] eqn:Hk; [|done].
  simpl. apply lookup_replicate_2. rewrite Forall_lookup in Hall. by eapply Hall.
Qed.

(** X1. The evaluator reads the stations of an ordering only through their
    sizes: two orderings of the same length whose stations have the same
    size position by position get the same cost, under the same preference
    matrix.  In particular, when all stations have the same size, all
    orderings of a given length get the same cost. *)
Theorem evaluar_solucion_solo_tamanos :
  (∀ (orden orden' : list nat) (preferencias : list (list Z)) (tamanos : list Z),
     length orden = length orden' →
     (∀ k, tamano_en orden tamanos k = tamano_en orden' tamanos k) →
     evaluar_solucion orden preferencias tamanos
     = evaluar_solucion orden' preferencias tamanos)
  ∧ (∀ (orden orden' : list nat) (preferencias : list (list Z)) (m : nat) (c : Z),
       length orden = length orden' →
       Forall (λ x, x < m) orden → Forall (λ x, x < m) orden' →
       evaluar_solucion orden preferencias (replicate m c)
       = evaluar_solucion orden' preferencias (replicate m c)).
Proof.
  assert (Hgen : ∀ (orden orden' : list nat) (preferencias : list (list Z))
                   (tamanos : list Z),
    length orden = length orden' →
    (∀ k, tamano_en orden tamanos k = tamano_en orden' tamanos k) →
    evaluar_solucion orden preferencias tamanos
    = evaluar_solucion orden' preferencias tamanos).
  { intros orden orden' preferencias tamanos Hlen H.
    unfold evaluar_solucion. cbv zeta. rewrite <- Hlen.
    apply for_acc_ext. intros i a _. apply for_acc_ext. intros j a' _.
    by rewrite (distancia_solo_tamanos i j orden orden' tamanos H). }
  split; [exact Hgen|].
  intros orden orden' preferencias m c Hlen Hall Hall'.
  apply Hgen; [done|]. intros k. rewrite !tamano_en_replicate by done.
  destruct (decide (k < length orden)) as [Hk|Hk].
  - destruct (lookup_lt_is_Some_2 orden k Hk) as [x ->].
    destruct (lookup_lt_is_Some_2 orden' k) as [y ->]; [lia|]. done.
  - rewrite !lookup_ge_None_2 by lia. done.
Qed.

Lemma evaluar_solucion_solo_tamanos_witness :
  evaluar_solucion [0; 1; 2; 3] [[0; 1; 2; 3]; [0; 0; 4; 5]; [0; 0; 0; 6]]%Z
    [7; 7; 7; 7]%Z
  = evaluar_solucion [3; 1; 0; 2] [[0; 1; 2; 3]; [0; 0; 4; 5]; [0; 0; 0; 6]]%Z
      [7; 7; 7; 7]%Z.
Proof.
  apply (proj2 evaluar_solucion_solo_tamanos [0; 1; 2; 3] [3; 1; 0; 2] _ 4 7%Z).
  - reflexivity.
  - repeat constructor.
  - repeat constructor.
Defined.

(** ** Distances add up along the line *)

Lemma suma_total_app (l k : list Z) :
  suma_total (l ++ k) = (suma_total l + suma_total k)%Z.
Proof.
  unfold suma_total. induction l as [|x l IH]; simpl; [lia|]. rewrite IH. lia.
Qed.

Lemma tamano_en_definido (orden : list nat) (tamanos : list Z) (k : nat) :
  Forall (λ x, x < length tamanos) orden → k < length orden →
  tamano_en orden tamanos k = Some (tamano_de orden tamanos k).
Proof.
  intros Hall Hk. unfold tamano_de.
  destruct (tamano_definido orden tamanos k Hall Hk) as (ok & Lk & Hok & HLk).
  assert (H : tamano_en orden tamanos k = Some Lk).
  { unfold tamano_en. by rewrite Hok. }
  by rewrite H.
Qed.

Lemma mapM_tamano_en (orden : list nat) (tamanos : list Z) (a n : nat) :
  Forall (λ x, x < length tamanos) orden → a + n ≤ length orden →
  mapM (tamano_en orden tamanos) (seq a n)
  = Some (tamano_de orden tamanos <$> seq a n).
Proof.
  intros Hall Hle. apply mapM_Some. apply Forall2_fmap_r, Forall_Forall2_diag.
  apply list.Forall_forall. intros k Hk. apply elem_of_seq in Hk.
  apply tamano_en_definido; [done|lia].
Qed.

Lemma distancia_tamano_de (orden : list nat) (tamanos : list Z) (i j : nat) :
  Forall (λ x, x < length tamanos) orden → i < length orden → j < length orden →
  distancia i j orden tamanos
  = Some (inject_Z (tamano_de orden tamanos i) / 2
          + inject_Z (suma_total (tamano_de orden tamanos <$> range (i + 1) j))
          + inject_Z (tamano_de orden tamanos j) / 2)%Q.
Proof.
  intros Hall Hi Hj. rewrite distancia_tamano_en.
  rewrite !tamano_en_definido by done. simpl.
  unfold range. rewrite mapM_tamano_en by (done || lia). simpl.
  by rewrite sum_suma_total.
Qed.

(** In exact arithmetic distances add up along the line. *)
Lemma distancia_aditiva (orden : list nat) (tamanos : list Z) (i k j : nat) :
  i < k < j → j < length orden → Forall (λ x, x < length tamanos) orden →
  ∃ dij dik dkj : Q,
    distancia i j orden tamanos = Some dij
    ∧ distancia i k orden tamanos = Some dik
    ∧ distancia k j orden tamanos = Some dkj
    ∧ (dij == dik + dkj)%Q.
Proof.
  intros Hik Hj Hall.
  eexists _, _, _. split_and!; [apply distancia_tamano_de; (done || lia)..|].
  assert (Hsplit : range (i + 1) j = range (i + 1) k ++ [k] ++ range (k + 1) j).
  { unfold range.
    replace (j - (i + 1)) with ((k - (i + 1)) + (1 + (j - (k + 1)))) by lia.
    rewrite seq_app. f_equal.
    replace (i + 1 + (k - (i + 1))) with k by lia.
    rewrite seq_app. simpl. repeat f_equal; lia. }
  rewrite Hsplit, !fmap_app, !suma_total_app. simpl.
  rewrite !inject_Z_plus. change (inject_Z 0) with 0%Q. field.
Qed.

(** ** When the evaluator is defined, and the sign of the cost *)

Lemma pares_corto (n : nat) : n ≤ 1 → pares n = [].
Proof.
  intros Hn. unfold pares, range. by replace (n - 1 - 0) with 0 by lia.
Qed.

Lemma evaluar_solucion_mapM (orden : list nat) (preferencias : list (list Z))
    (tamanos : list Z) :
  evaluar_solucion orden preferencias tamanos
  = ts ← mapM (termino orden preferencias tamanos) (pares (length orden));
    Some (foldl Qplus 0%Q ts).
Proof. by rewrite evaluar_solucion_pares, for_acc_mapM. Qed.

Lemma termino_definido (orden : list nat) (preferencias : list (list Z))
    (tamanos : list Z) (i j : nat) :
  is_Some (termino orden preferencias tamanos (i, j))
  ↔ is_Some (distancia i j orden tamanos) ∧ is_Some (entrada preferencias i j).
Proof.
  unfold termino. cbn [fst snd].
  destruct (distancia i j orden tamanos) as [d|]; simpl.
  - destruct (entrada preferencias i j) as [p|]; simpl.
    + split; [by split|by eexists].
    + split; [by intros [? [=]]|by intros [_ [? [=]]]].
  - split; [by intros [? [=]]|by intros [[? [=]] _]].
Qed.

Lemma distancia_definida_inv (orden : list nat) (tamanos : list Z) (i j : nat) :
  is_Some (distancia i j orden tamanos) →
  is_Some (tamano_en orden tamanos i) ∧ is_Some (tamano_en orden tamanos j).
Proof.
  rewrite distancia_tamano_en.
  destruct (tamano_en orden tamanos i) as [Lxi|]; simpl; [|by intros [? [=]]].
  destruct (tamano_en orden tamanos j) as [Lxj|]; simpl; [|by intros [? [=]]].
  intros _. by split; eexists.
Qed.

Lemma tamano_en_Some (orden : list nat) (tamanos : list Z) (k : nat) (L : Z) :
  tamano_en orden tamanos k = Some L →
  ∃ x, orden !! k = Some x ∧ tamanos !! x = Some L.
Proof.
  unfold tamano_en. destruct (orden !! k) as [x|]; simpl; [|done]. eauto.
Qed.

(** The exact evaluator is defined exactly when the ordering has at most
    one station, or every station of the ordering has a size and the
    preference matrix has an entry for every pair of positions [i < j]. *)
Lemma evaluar_solucion_definida (orden : list nat) (preferencias : list (list Z))
    (tamanos : list Z) :
  is_Some (evaluar_solucion orden preferencias tamanos)
  ↔ length orden ≤ 1
    ∨ (Forall (λ x, x < length tamanos) orden
       ∧ ∀ i j, i < j < length orden → is_Some (entrada preferencias i j)).
Proof.
  rewrite evaluar_solucion_mapM. split.
  - intros Hsome.
    assert (Hts : is_Some (mapM (termino orden preferencias tamanos)
                              (pares (length orden)))).
    { destruct (mapM _ _); [by eexists|]. by destruct Hsome as [? [=]]. }
    apply mapM_is_Some in Hts. rewrite list.Forall_forall in Hts.
    assert (Hpar : ∀ i j, i < j < length orden →
      is_Some (distancia i j orden tamanos) ∧ is_Some (entrada preferencias i j)).
    { intros i j Hij. apply termino_definido. apply (Hts (i, j)).
      by apply elem_of_pares. }
    destruct (decide (length orden ≤ 1)) as [Hn|Hn]; [by left|right].
    split; [|intros i j Hij; by apply Hpar].
    apply Forall_lookup. intros k x Hk.
    pose proof (lookup_lt_Some _ _ _ Hk) as Hkn.
    assert (Hsz : is_Some (tamano_en orden tamanos k)).
    { destruct (decide (k = 0)) as [->|Hk0].
      - destruct (Hpar 0 1) as [Hd _]; [lia|].
        by apply distancia_definida_inv in Hd as [? _].
      - destruct (Hpar 0 k) as [Hd _]; [lia|].
        by apply distancia_definida_inv in Hd as [_ ?]. }
    destruct Hsz as [L (y & Hy & HL)%tamano_en_Some].
    assert (y = x) as -> by congruence. by eapply lookup_lt_Some.
  - intros [Hn|[Hall Hent]].
    + rewrite (pares_corto _ Hn). by eexists.
    + assert (Hts : is_Some (mapM (termino orden preferencias tamanos)
                                (pares (length orden)))).
      { apply mapM_is_Some, list.Forall_forall. intros [i j] Hij.
        apply elem_of_pares in Hij. apply termino_definido. split.
        - apply distancia_definida; [done|lia..].
        - by apply Hent. }
      destruct Hts as [ts ->]. by eexists.
Qed.

Lemma Qle_0_plus (a b : Q) : (0 <= a → 0 <= b → 0 <= a + b)%Q.
Proof.
  intros Ha Hb. rewrite <- (Qplus_0_l 0). by apply Qplus_le_compat.
Qed.

Lemma Qle_0_inject_Z (z : Z) : (0 ≤ z)%Z → (0 <= inject_Z z)%Q.
Proof. intros Hz. change 0%Q with (inject_Z 0). by rewrite <- Zle_Qle. Qed.

Lemma Qle_0_mitad (z : Z) : (0 ≤ z)%Z → (0 <= inject_Z z / 2)%Q.
Proof.
  intros Hz. apply Qle_shift_div_l; [done|]. rewrite Qmult_0_l.
  by apply Qle_0_inject_Z.
Qed.

Lemma sum_no_negativa (l : list Z) : Forall (λ z, (0 ≤ z)%Z) l → (0 ≤ sum l)%Z.
Proof.
  rewrite sum_suma_total. unfold suma_total.
  induction 1 as [|x l Hx _ IH]; simpl; lia.
Qed.

Lemma tamano_en_no_negativo (orden : list nat) (tamanos : list Z) (k : nat) (L : Z) :
  Forall (λ z, (0 ≤ z)%Z) tamanos → tamano_en orden tamanos k = Some L → (0 ≤ L)%Z.
Proof.
  intros Hnn (x & _ & HL)%tamano_en_Some. rewrite Forall_lookup in Hnn.
  by eapply Hnn.
Qed.

Lemma distancia_no_negativa (orden : list nat) (tamanos : list Z) (i j : nat) (d : Q) :
  Forall (λ z, (0 ≤ z)%Z) tamanos →
  distancia i j orden tamanos = Some d → (0 <= d)%Q.
Proof.
  intros Hnn. rewrite distancia_tamano_en.
  destruct (tamano_en orden tamanos i) as [Lxi|] eqn:Hi; simpl; [|done].
  destruct (tamano_en orden tamanos j) as [Lxj|] eqn:Hj; simpl; [|done].
  destruct (mapM _ _) as [medio|] eqn:Hm; simpl; [|done].
  intros [= <-]. repeat apply Qle_0_plus.
  - apply Qle_0_mitad. by eapply tamano_en_no_negativo.
  - apply Qle_0_inject_Z, sum_no_negativa.
    apply mapM_Some in Hm. clear Hi Hj.
    induction Hm as [|k L ks medio HL _ IH]; constructor; [|done].
    by apply (tamano_en_no_negativo orden tamanos k).
  - apply Qle_0_mitad. by eapply tamano_en_no_negativo.
Qed.

(** Without negative sizes or preferences the exact cost is not negative. *)
Lemma evaluar_solucion_no_negativa (orden : list nat) (preferencias : list (list Z))
    (tamanos : list Z) (c : Q) :
  Forall (λ z, (0 ≤ z)%Z) tamanos →
  (∀ i j p, i < j < length orden → entrada preferencias i j = Some p → (0 ≤ p)%Z) →
  evaluar_solucion orden preferencias tamanos = Some c → (0 <= c)%Q.
Proof.
  intros Hnn Hpref. rewrite evaluar_solucion_pares.
  assert (Hin : ∀ ij, ij ∈ pares (length orden) → ij.1 < ij.2 < length orden).
  { intros [i j]. apply elem_of_pares. }
  revert Hin. generalize (pares (length orden)). intros l.
  assert (Hgen : ∀ a : Q, (0 <= a)%Q →
    (∀ ij, ij ∈ l → ij.1 < ij.2 < length orden) →
    for_acc l (λ esfuerzo ij,
      x ← termino orden preferencias tamanos ij; Some (esfuerzo + x)%Q) a = Some c →
    (0 <= c)%Q); [|by apply Hgen].
  induction l as [|[i j] l IH]; intros a Ha Hin; cbn [for_acc].
  - by intros [= <-].
  - assert (Hij : i < j < length orden) by (apply (Hin (i, j)); left).
    destruct (termino orden preferencias tamanos (i, j)) as [x|] eqn:Ht;
      cbn [mbind option_bind]; [|done].
    unfold termino in Ht. cbn [fst snd] in Ht.
    destruct (distancia i j orden tamanos) as [d|] eqn:Hd; [|done].
    destruct (entrada preferencias i j) as [p|] eqn:Hp; [|done].
    injection Ht as <-. apply IH.
    + apply Qle_0_plus; [done|]. apply Qmult_le_0_compat.
      * by eapply distancia_no_negativa.
      * apply Qle_0_inject_Z. by eapply Hpref.
    + intros ij Hij'. apply Hin. by right.
Qed.

(** ** The objective function as the code computes it, in doubles *)

(** [redondear] against the binary64 operations of the standard library:
    normalisation of [m * 2^e], and division. *)
Lemma redondear_binary_normalize :
  forallb (λ me : Z * Z,
    mismo_doble
      (doble_de_SpecFloat (SpecFloat.binary_normalize 53 1024 me.1 me.2 false))
      (redondear (de_mantisa me.1 me.2))) bateria = true.
Proof. vm_compute. reflexivity. Qed.

Lemma redondear_SFdiv :
  forallb (λ ab : Z * Z,
    mismo_doble
      (doble_de_SpecFloat
         (SpecFloat.SFdiv 53 1024
            (SpecFloat.binary_normalize 53 1024 ab.1 0 false)
            (SpecFloat.binary_normalize 53 1024 ab.2 0 false)))
      (redondear (ab.1 # Z.to_pos ab.2))) bateria_cocientes = true.
Proof. vm_compute. reflexivity. Qed.

(** *** Rounding is exact on half-integers below 2^53 *)

Lemma floor_log2_cota (a d : positive) :
  (Z.pos a < 2 ^ 52 * Z.pos d)%Z → (floor_log2 a d ≤ 51)%Z.
Proof.
  intros Hlt. unfold floor_log2.
  set (k := (Z.log2 (Z.pos a) - Z.log2 (Z.pos d))%Z).
  assert (Hk : (k ≤ 52)%Z).
  { pose proof (Z.log2_spec (Z.pos d) ltac:(lia)) as [_ Hd].
    pose proof (Z.log2_nonneg (Z.pos d)) as Hd0.
    assert (Ha : (Z.pos a < 2 ^ (Z.log2 (Z.pos d) + 53))%Z).
    { replace (Z.log2 (Z.pos d) + 53)%Z with (52 + Z.succ (Z.log2 (Z.pos d)))%Z by lia.
      rewrite Z.pow_add_r by lia. nia. }
    apply Z.log2_lt_pow2 in Ha; lia. }
  destruct (0 <=? k)%Z eqn:Hk0.
  - destruct (Z.pos d * 2 ^ k <=? Z.pos a)%Z eqn:Hc; [|lia].
    apply Z.leb_le in Hc. destruct (decide (k = 52%Z)) as [Hk52|]; [|lia]. rewrite Hk52 in Hc. lia.
  - apply Z.leb_gt in Hk0. destruct (_ <=? _)%Z; lia.
Qed.

Lemma redondeo_par_exacto (k den : Z) :
  (0 < den)%Z → redondeo_par (k * den) den = k.
Proof.
  intros Hden. unfold redondeo_par.
  rewrite Z.div_mul, Z.mod_mul by lia. cbv zeta. rewrite Z.mul_0_r.
  destruct (0 <? den)%Z eqn:E; [done|]. apply Z.ltb_ge in E. lia.
Qed.

Lemma redondear_pos_exacto (negativo : bool) (a d : positive) (h : Z) :
  (2 * Z.pos a = h * Z.pos d)%Z → (h < 2 ^ 53)%Z →
  ∃ r, redondear_pos negativo a d = Finito r
       ∧ (r == con_signo negativo (Z.pos a) # d)%Q.
Proof.
  intros Hh Hlt. unfold redondear_pos.
  assert (Hfl : (floor_log2 a d ≤ 51)%Z).
  { apply floor_log2_cota. nia. }
  set (e := Z.max (floor_log2 a d - 52) (-1074)).
  assert (He : (-1074 ≤ e ≤ -1)%Z) by lia.
  cbv zeta. rewrite (proj2 (Z.leb_gt 0 e)) by lia.
  assert (Hpow : (2 ^ (- e) = 2 * 2 ^ (- e - 1))%Z).
  { replace (- e)%Z with (Z.succ (- e - 1)) at 1 by lia. apply Z.pow_succ_r. lia. }
  assert (Hpos : (0 < 2 ^ (- e - 1))%Z) by (apply Z.pow_pos_nonneg; lia).
  assert (Hnum : (Z.pos a * 2 ^ (- e) = (h * 2 ^ (- e - 1)) * Z.pos d)%Z).
  { rewrite Hpow. nia. }
  rewrite Hnum, redondeo_par_exacto by lia.
  eexists. split; [done|]. unfold Qeq. cbn [Qnum Qden].
  rewrite Z2Pos.id by lia. destruct negativo; cbn [con_signo]; nia.
Qed.

(** A half-integer [h / 2] with [|h| < 2^53] is a double. *)
Lemma redondear_exacto (q : Q) (h : Z) :
  semientero q h → (Z.abs h < 2 ^ 53)%Z →
  ∃ r, redondear q = Finito r ∧ (r == q)%Q.
Proof.
  unfold semientero. destruct q as [n d]. unfold Qeq. cbn.
  intros Hh Hlt. unfold redondear. cbn [Qnum Qden].
  destruct n as [|a|a].
  - exists 0%Q. by split.
  - apply (redondear_pos_exacto false a d h); lia.
  - apply (redondear_pos_exacto true a d (- h)); lia.
Qed.

(** Half-integers are closed under the operations of the evaluator. *)

Lemma semientero_mitad (z : Z) : semientero (inject_Z z / 2) z.
Proof. unfold semientero. reflexivity. Qed.

Lemma semientero_entero (z : Z) : semientero (inject_Z z) (2 * z).
Proof. unfold semientero. rewrite inject_Z_mult. field. Qed.

Lemma semientero_suma (a b : Q) (h k : Z) :
  semientero a h → semientero b k → semientero (a + b) (h + k).
Proof. unfold semientero. intros -> ->. rewrite inject_Z_plus. field. Qed.

Lemma semientero_producto (a : Q) (h p : Z) :
  semientero a h → semientero (a * inject_Z p) (h * p).
Proof. unfold semientero. intros ->. rewrite inject_Z_mult. field. Qed.

Lemma semientero_Qeq (a b : Q) (h : Z) :
  (a == b)%Q → semientero a h → semientero b h.
Proof. unfold semientero. by intros ->. Qed.

Lemma suma_doble_exacta (a b : Q) (h : Z) :
  semientero (a + b) h → (Z.abs h < 2 ^ 53)%Z →
  ∃ r, suma_doble (Finito a) (Finito b) = Finito r ∧ (r == a + b)%Q.
Proof. apply redondear_exacto. Qed.

Lemma producto_doble_exacto (a b : Q) (h : Z) :
  semientero (a * b) h → (Z.abs h < 2 ^ 53)%Z →
  ∃ r, producto_doble (Finito a) (Finito b) = Finito r ∧ (r == a * b)%Q.
Proof. apply redondear_exacto. Qed.

Lemma flotante_de_entero_exacto (z : Z) :
  (Z.abs (2 * z) < 2 ^ 53)%Z →
  ∃ r, flotante_de_entero z = Val (Finito r) ∧ (r == inject_Z z)%Q.
Proof.
  intros Hz. unfold flotante_de_entero.
  destruct (redondear_exacto (inject_Z z) (2 * z)) as (r & -> & Hr);
    [apply semientero_entero|done|]. by exists r.
Qed.

Lemma division_entre_dos_exacta (z : Z) :
  (Z.abs z < 2 ^ 53)%Z →
  ∃ r, division_entre_dos z = Val (Finito r) ∧ (r == inject_Z z / 2)%Q.
Proof.
  intros Hz. unfold division_entre_dos.
  destruct (redondear_exacto (inject_Z z / 2) z) as (r & -> & Hr);
    [apply semientero_mitad|done|]. by exists r.
Qed.

(** *** The distance in doubles *)

Lemma indice_tamano_en (orden : list nat) (tamanos : list Z) (k : nat) :
  (ok ← indice (orden !! k); indice (tamanos !! ok))
  = indice (tamano_en orden tamanos k).
Proof. unfold tamano_en. by destruct (orden !! k). Qed.

Lemma mapM_res_tamano (orden : list nat) (tamanos : list Z) (l : list nat) :
  mapM (λ k, ok ← indice (orden !! k); indice (tamanos !! ok)) l
  = indice (mapM (tamano_en orden tamanos) l).
Proof.
  induction l as [|k l IH]; [done|]. cbn [mapM]. rewrite IH, indice_tamano_en.
  destruct (tamano_en orden tamanos k) as [L|];
    cbn [indice mbind res_bind option_bind]; [|done].
  by destruct (mapM (tamano_en orden tamanos) l).
Qed.

Lemma distancia_doble_tamano_en (i j : nat) (orden : list nat) (tamanos : list Z) :
  distancia_doble i j orden tamanos
  = Lxi ← indice (tamano_en orden tamanos i);
    Lxj ← indice (tamano_en orden tamanos j);
    medio ← indice (mapM (tamano_en orden tamanos) (range (i + 1) j));
    a ← division_entre_dos Lxi;
    s ← flotante_de_entero (sum medio);
    b ← division_entre_dos Lxj;
    mret (suma_doble (suma_doble a s) b).
Proof.
  unfold distancia_doble. rewrite mapM_res_tamano.
  rewrite <- !indice_tamano_en.
  destruct (orden !! i) as [oi|];
    cbn [indice mbind res_bind option_bind]; [|done].
  destruct (tamanos !! oi) as [Lxi|];
    cbn [indice mbind res_bind option_bind]; [|done].
  by destruct (orden !! j) as [oj|].
Qed.

Lemma suma_total_abs_nonneg {A} (g : A → Z) (l : list A) :
  (0 ≤ suma_total ((λ k, Z.abs (g k)) <$> l))%Z.
Proof.
  unfold suma_total. induction l as [|x l IH]; [done|].
  rewrite fmap_cons. cbn [foldr]. lia.
Qed.

Lemma abs_suma_total {A} (g : A → Z) (l : list A) :
  (Z.abs (suma_total (g <$> l)) ≤ suma_total ((λ k, Z.abs (g k)) <$> l))%Z.
Proof.
  unfold suma_total. induction l as [|x l IH]; [done|].
  rewrite !fmap_cons. cbn [foldr]. lia.
Qed.

Lemma mapM_tamano_en_Some (orden : list nat) (tamanos : list Z) (l : list nat)
    (medio : list Z) :
  mapM (tamano_en orden tamanos) l = Some medio →
  medio = tamano_de orden tamanos <$> l.
Proof.
  intros H. apply mapM_Some in H.
  induction H as [|k L ks medio HL _ IH]; [done|].
  simpl. rewrite IH. f_equal. unfold tamano_de. by rewrite HL.
Qed.

Lemma peso_tramo (orden : list nat) (tamanos : list Z) (i j : nat) :
  i < j < length orden →
  (Z.abs (tamano_de orden tamanos i)
   + suma_total ((λ k, Z.abs (tamano_de orden tamanos k)) <$> range (i + 1) j)
   + Z.abs (tamano_de orden tamanos j)
   ≤ peso_tamanos orden tamanos)%Z.
Proof.
  intros Hij. unfold peso_tamanos, range.
  set (f := λ k, Z.abs (tamano_de orden tamanos k)).
  replace (length orden)
    with (i + (1 + ((j - (i + 1)) + (1 + (length orden - (j + 1)))))) by lia.
  rewrite !seq_app, !fmap_app, !suma_total_app. simpl.
  replace (i + 1 + (j - (i + 1))) with j by lia.
  replace (S i) with (i + 1) by lia.
  pose proof (suma_total_abs_nonneg (tamano_de orden tamanos) (seq 0 i)).
  pose proof (suma_total_abs_nonneg (tamano_de orden tamanos)
                (seq (j + 1) (length orden - (j + 1)))).
  fold f in H, H0. unfold suma_total in *. cbn [foldr fmap list_fmap].
  replace (S j) with (j + 1) by lia. subst f. cbn beta in *. lia.
Qed.

(** With sizes in range the distance in doubles is the exact distance, a
    half-integer bounded by the total of the sizes; [IndexError] is raised
    on both sides or on neither. *)
Lemma distancia_doble_exacta (orden : list nat) (tamanos : list Z) (i j : nat) :
  tamanos_en_rango orden tamanos → i < j < length orden →
  match distancia i j orden tamanos with
  | Some d =>
      ∃ (r : Q) (h : Z),
        distancia_doble i j orden tamanos = Val (Finito r) ∧ (r == d)%Q
        ∧ semientero d h ∧ (Z.abs h ≤ 2 * peso_tamanos orden tamanos)%Z
  | None => distancia_doble i j orden tamanos = Err FIndexError
  end.
Proof.
  unfold tamanos_en_rango. intros Hrango Hij.
  rewrite distancia_tamano_en, distancia_doble_tamano_en.
  destruct (tamano_en orden tamanos i) as [Lxi|] eqn:Hi;
    cbn [indice mbind res_bind option_bind]; [|done].
  destruct (tamano_en orden tamanos j) as [Lxj|] eqn:Hj;
    cbn [indice mbind res_bind option_bind]; [|done].
  destruct (mapM (tamano_en orden tamanos) (range (i + 1) j)) as [medio|] eqn:Hm;
    cbn [indice mbind res_bind option_bind]; [|done].
  pose proof (peso_tramo orden tamanos i j Hij) as Hpeso.
  apply mapM_tamano_en_Some in Hm. rewrite sum_suma_total, Hm.
  pose proof (abs_suma_total (tamano_de orden tamanos) (range (i + 1) j)) as Hmed.
  set (S := suma_total (tamano_de orden tamanos <$> range (i + 1) j)) in *.
  assert (tamano_de orden tamanos i = Lxi) as Hti by (unfold tamano_de; by rewrite Hi).
  assert (tamano_de orden tamanos j = Lxj) as Htj by (unfold tamano_de; by rewrite Hj).
  rewrite Hti, Htj in Hpeso.
  destruct (division_entre_dos_exacta Lxi) as (ra & -> & Hra); [lia|].
  destruct (flotante_de_entero_exacto S) as (rs & -> & Hrs); [lia|].
  destruct (division_entre_dos_exacta Lxj) as (rb & -> & Hrb); [lia|].
  cbn [mbind res_bind mret res_ret].
  assert (H1 : semientero (inject_Z Lxi / 2 + inject_Z S) (Lxi + 2 * S)).
  { apply semientero_suma; [apply semientero_mitad|apply semientero_entero]. }
  assert (H2 : semientero (inject_Z Lxi / 2 + inject_Z S + inject_Z Lxj / 2)
                          (Lxi + 2 * S + Lxj)).
  { apply semientero_suma; [done|apply semientero_mitad]. }
  destruct (suma_doble_exacta ra rs (Lxi + 2 * S)) as (r1 & -> & Hr1); [|lia|].
  { eapply semientero_Qeq; [|exact H1]. by rewrite Hra, Hrs. }
  destruct (suma_doble_exacta r1 rb (Lxi + 2 * S + Lxj)) as (r2 & -> & Hr2); [|lia|].
  { eapply semientero_Qeq; [|exact H2]. by rewrite Hr1, Hra, Hrs, Hrb. }
  exists r2, (Lxi + 2 * S + Lxj)%Z. split_and!; [done| |done|lia].
  by rewrite Hr2, Hr1, Hra, Hrs, Hrb.
Qed.

(** *** The evaluator in doubles *)

Lemma for_res_app {A S} (l1 l2 : list A) (f : S → A → res S) (acc : S) :
  for_res (l1 ++ l2) f acc = for_res l1 f acc ≫= for_res l2 f.
Proof.
  revert acc. induction l1 as [|x l1 IH]; intros acc; simpl; [done|].
  destruct (f acc x); simpl; [apply IH | done].
Qed.

Lemma for_res_ext {A S} (l : list A) (f g : S → A → res S) (acc : S) :
  (∀ x a, x ∈ l → f a x = g a x) → for_res l f acc = for_res l g acc.
Proof.
  revert acc. induction l as [|x l IH]; intros acc H; simpl; [done|].
  rewrite (H x acc) by left. destruct (g acc x) as [acc'|]; simpl; [|done].
  apply IH. intros y a Hy. apply H. by right.
Qed.

Lemma for_res_pares {S} (f : S → nat * nat → res S) (g : nat → list nat)
    (l : list nat) (acc : S) :
  for_res l (λ a i, for_res (g i) (λ a' j, f a' (i, j)) a) acc
  = for_res (i ← l; j ← g i; [(i, j)]) f acc.
Proof.
  revert acc. induction l as [|i l IH]; intros acc; [done|].
  simpl. rewrite for_res_app.
  assert (Hin : ∀ a, for_res (g i) (λ a' j, f a' (i, j)) a
                     = for_res (j ← g i; [(i, j)]) f a).
  { generalize (g i). intros k. induction k as [|j k IHk]; intros a; [done|].
    simpl. destruct (f a (i, j)); simpl; [apply IHk|done]. }
  rewrite Hin. destruct (for_res _ f acc); simpl; [apply IH|done].
Qed.

(** The nested loops visit the pairs of [pares], in that order. *)
Lemma evaluar_solucion_doble_pares (orden : list nat) (preferencias : list (list Z))
    (tamanos : list Z) :
  evaluar_solucion_doble orden preferencias tamanos
  = for_res (pares (length orden))
      (λ esfuerzo ij,
         x ← termino_doble orden preferencias tamanos ij;
         mret (suma_doble esfuerzo x))
      (Finito 0).
Proof.
  unfold evaluar_solucion_doble, pares. cbv zeta.
  rewrite <- (for_res_pares (λ esfuerzo ij,
    x ← termino_doble orden preferencias tamanos ij; mret (suma_doble esfuerzo x))).
  apply for_res_ext. intros i a _. apply for_res_ext. intros j a' _.
  unfold termino_doble, entrada. cbn [fst snd].
  destruct (distancia_doble i j orden tamanos) as [d|];
    cbn [indice mbind res_bind option_bind]; [|done].
  destruct (preferencias !! i) as [fila|];
    cbn [indice mbind res_bind option_bind]; [|done].
  destruct (fila !! j) as [p|];
    cbn [indice mbind res_bind option_bind]; [|done].
  by destruct (flotante_de_entero p).
Qed.

Lemma peso_tamanos_nonneg (orden : list nat) (tamanos : list Z) :
  (0 ≤ peso_tamanos orden tamanos)%Z.
Proof. apply suma_total_abs_nonneg. Qed.

Lemma peso_preferencias_nonneg (orden : list nat) (preferencias : list (list Z)) :
  (0 ≤ peso_preferencias orden preferencias)%Z.
Proof. apply suma_total_abs_nonneg. Qed.

Lemma en_rango_tamanos (orden : list nat) (preferencias : list (list Z))
    (tamanos : list Z) :
  en_rango orden preferencias tamanos → tamanos_en_rango orden tamanos.
Proof.
  unfold en_rango, tamanos_en_rango.
  pose proof (peso_tamanos_nonneg orden tamanos).
  pose proof (peso_preferencias_nonneg orden preferencias). nia.
Qed.

Lemma en_rango_cotas (orden : list nat) (preferencias : list (list Z))
    (tamanos : list Z) :
  en_rango orden preferencias tamanos →
  (2 * peso_preferencias orden preferencias < 2 ^ 53)%Z
  ∧ (2 * peso_tamanos orden tamanos * peso_preferencias orden preferencias
     < 2 ^ 53)%Z.
Proof.
  unfold en_rango.
  pose proof (peso_tamanos_nonneg orden tamanos).
  pose proof (peso_preferencias_nonneg orden preferencias). nia.
Qed.

Lemma termino_doble_exacto (orden : list nat) (preferencias : list (list Z))
    (tamanos : list Z) (i j : nat) :
  en_rango orden preferencias tamanos → i < j < length orden →
  (Z.abs (entrada_de preferencias (i, j))
   ≤ peso_preferencias orden preferencias)%Z →
  match termino orden preferencias tamanos (i, j) with
  | Some x =>
      ∃ (r : Q) (hx : Z),
        termino_doble orden preferencias tamanos (i, j) = Val (Finito r)
        ∧ (r == x)%Q ∧ semientero x hx
        ∧ (Z.abs hx ≤ 2 * peso_tamanos orden tamanos
                      * Z.abs (entrada_de preferencias (i, j)))%Z
  | None => termino_doble orden preferencias tamanos (i, j) = Err FIndexError
  end.
Proof.
  intros Hrango Hij Hp. pose proof (en_rango_tamanos _ _ _ Hrango) as Htam.
  pose proof (peso_tamanos_nonneg orden tamanos) as HT.
  apply en_rango_cotas in Hrango as [HW2 HTW].
  unfold termino_doble, termino, entrada_de in *. cbn [fst snd] in *.
  pose proof (distancia_doble_exacta orden tamanos i j Htam Hij) as Hd.
  destruct (distancia i j orden tamanos) as [d|];
    cbn [mbind option_bind]; [|by rewrite Hd].
  destruct Hd as (r & hd & -> & Hr & Hhd & Hcd).
  cbn [mbind res_bind].
  destruct (entrada preferencias i j) as [p|];
    cbn [indice mbind res_bind option_bind default] in *; [|done].
  unfold id in *.
  destruct (flotante_de_entero_exacto p) as (rp & -> & Hrp); [lia|].
  cbn [mbind res_bind].
  assert (Hprod : (Z.abs (hd * p) ≤ 2 * peso_tamanos orden tamanos * Z.abs p)%Z).
  { rewrite Z.abs_mul. nia. }
  assert (Hprod' : (2 * peso_tamanos orden tamanos * Z.abs p
                    ≤ 2 * peso_tamanos orden tamanos
                      * peso_preferencias orden preferencias)%Z) by nia.
  destruct (producto_doble_exacto r rp (hd * p)) as (rt & -> & Hrt); [|lia|].
  { eapply semientero_Qeq; [|apply (semientero_producto d hd p Hhd)].
    by rewrite Hr, Hrp. }
  exists rt, (hd * p)%Z. split_and!; [done| | |done].
  - by rewrite Hrt, Hr, Hrp.
  - by apply semientero_producto.
Qed.

(** The accumulator stays a half-integer in range along the loop. *)
Lemma bucle_exacto (orden : list nat) (preferencias : list (list Z))
    (tamanos : list Z) (l : list (nat * nat)) (acc a' : Q) (h W0 : Z) :
  en_rango orden preferencias tamanos →
  (∀ ij, ij ∈ l → ij.1 < ij.2 < length orden) →
  (a' == acc)%Q → semientero acc h →
  (Z.abs h ≤ 2 * peso_tamanos orden tamanos * W0)%Z → (0 ≤ W0)%Z →
  (W0 + suma_total ((λ ij, Z.abs (entrada_de preferencias ij)) <$> l)
   ≤ peso_preferencias orden preferencias)%Z →
  coincide
    (for_res l (λ esfuerzo ij,
       x ← termino_doble orden preferencias tamanos ij;
       mret (suma_doble esfuerzo x)) (Finito a'))
    (for_acc l (λ esfuerzo ij,
       x ← termino orden preferencias tamanos ij; Some (esfuerzo + x)%Q) acc).
Proof.
  intros Hrango.
  pose proof (peso_tamanos_nonneg orden tamanos) as HT.
  revert acc a' h W0.
  induction l as [|[i j] l IH]; intros acc a' h W0 Hin Ha Hh Hcota HW0 HW.
  - done.
  - cbn [for_res for_acc].
    assert (Hij : i < j < length orden) by (apply (Hin (i, j)); left).
    rewrite fmap_cons in HW. unfold suma_total in HW. cbn [foldr] in HW.
    fold (suma_total ((λ ij, Z.abs (entrada_de preferencias ij)) <$> l)) in HW.
    pose proof (suma_total_abs_nonneg (entrada_de preferencias) l) as Hl.
    pose proof (termino_doble_exacto orden preferencias tamanos i j Hrango Hij)
      as Ht.
    destruct (termino orden preferencias tamanos (i, j)) as [x|];
      cbn [mbind option_bind].
    2:{ rewrite Ht by lia. done. }
    destruct Ht as (r & hx & -> & Hr & Hhx & Hcx); [lia|].
    cbn [mbind res_bind mret res_ret].
    pose proof (en_rango_cotas _ _ _ Hrango) as [HW2 HTW].
    assert (Hsum : (Z.abs (h + hx)
                    ≤ 2 * peso_tamanos orden tamanos
                      * (W0 + Z.abs (entrada_de preferencias (i, j))))%Z) by nia.
    assert (Hsum' : (2 * peso_tamanos orden tamanos
                     * (W0 + Z.abs (entrada_de preferencias (i, j)))
                     ≤ 2 * peso_tamanos orden tamanos
                       * peso_preferencias orden preferencias)%Z) by nia.
    destruct (suma_doble_exacta a' r (h + hx)) as (a'' & -> & Ha''); [|lia|].
    { eapply semientero_Qeq; [|apply (semientero_suma acc x h hx Hh Hhx)].
      by rewrite Ha, Hr. }
    apply (IH (acc + x)%Q a'' (h + hx)%Z
              (W0 + Z.abs (entrada_de preferencias (i, j)))%Z).
    + intros ij Hij'. apply Hin. by right.
    + by rewrite Ha'', Ha, Hr.
    + by apply semientero_suma.
    + done.
    + lia.
    + lia.
Qed.

(** In range, the evaluator in doubles and the exact evaluator agree. *)
Lemma evaluar_solucion_doble_exacta (orden : list nat) (preferencias : list (list Z))
    (tamanos : list Z) :
  en_rango orden preferencias tamanos →
  coincide (evaluar_solucion_doble orden preferencias tamanos)
           (evaluar_solucion orden preferencias tamanos).
Proof.
  intros Hrango. rewrite evaluar_solucion_doble_pares, evaluar_solucion_pares.
  apply (bucle_exacto orden preferencias tamanos _ 0%Q 0%Q 0%Z 0%Z); try done.
  - intros [i j]. apply elem_of_pares.
  - lia.
Qed.

Lemma coincide_Some (r : res doble) (o : option Q) (q : Q) :
  coincide r o → o = Some q → ∃ x, r = Val (Finito x) ∧ (x == q)%Q.
Proof.
  intros H ->. destruct r as [[x| |]|[]]; try done. by exists x.
Qed.

Lemma coincide_None (r : res doble) (o : option Q) :
  coincide r o → o = None → r = Err FIndexError.
Proof. intros H ->. by destruct r as [[x| |]|[]]. Qed.

Lemma coincide_Val (r : res doble) (o : option Q) (x : Q) :
  coincide r o → r = Val (Finito x) → ∃ q, o = Some q ∧ (x == q)%Q.
Proof. intros H ->. destruct o as [q|]; [|done]. by exists q. Qed.

Lemma coincide_Qeq (r : res doble) (o o' : option Q) :
  coincide r o → option_Forall2 Qeq o o' → coincide r o'.
Proof.
  intros H Ho. destruct o as [q|], o' as [q'|]; try by inversion Ho.
  destruct r as [[x| |]|[]]; try done. simpl in *.
  inversion Ho as [? ? Hq|]; subst. by rewrite H.
Qed.

Lemma tamanos_en_rango_ceros (orden : list nat) (preferencias : list (list Z))
    (tamanos : list Z) :
  tamanos_en_rango orden tamanos →
  (∀ i j, i < j < length orden → entrada preferencias i j = Some 0%Z) →
  en_rango orden preferencias tamanos.
Proof.
  unfold tamanos_en_rango, en_rango. intros HT Hcero.
  assert (HW : peso_preferencias orden preferencias = 0%Z).
  { unfold peso_preferencias.
    assert (Hin : ∀ ij, ij ∈ pares (length orden) → ij.1 < ij.2 < length orden).
    { intros [i j]. apply elem_of_pares. }
    revert Hin. generalize (pares (length orden)). intros l Hin.
    induction l as [|[i j] l IH]; [done|].
    rewrite fmap_cons. unfold suma_total in *. cbn [foldr].
    rewrite IH by (intros ij Hij; apply Hin; by right).
    unfold entrada_de. cbn [fst snd].
    rewrite (Hcero i j) by (apply (Hin (i, j)); left). done. }
  rewrite HW. lia.
Qed.

(** C3. For positions [i < j] of an ordering whose stations all have a
    size, with twice the total of the sizes (in absolute value) along the
    ordering below 2^53, the distance the code computes in doubles is a
    finite float, equal to half the size of the station at position [i],
    plus the full sizes of the stations strictly between the two positions,
    plus half the size of the station at position [j].  In particular, with
    sizes [2,2,2] and the ordering [0,1,2], the distance between positions 0
    and 2 is 4. *)
Theorem distancia_doble_formula :
  (∀ (orden : list nat) (tamanos : list Z) (i j : nat),
     i < j → j < length orden → Forall (λ x, x < length tamanos) orden →
     tamanos_en_rango orden tamanos →
     ∃ (Lxi Lxj : Z) (entre : list Z) (d : Q),
       orden !! i ≫= (tamanos !!.) = Some Lxi ∧
       orden !! j ≫= (tamanos !!.) = Some Lxj ∧
       mapM (tamanos !!.) (estaciones_entre i j orden) = Some entre ∧
       distancia_doble i j orden tamanos = Val (Finito d) ∧
       (d == inject_Z Lxi / 2 + inject_Z (suma_total entre) + inject_Z Lxj / 2)%Q)
  ∧ (∃ d : Q, distancia_doble 0 2 [0; 1; 2] [2; 2; 2]%Z = Val (Finito d)
              ∧ (d == 4)%Q).
Proof.
  split.
  - intros orden tamanos i j Hij Hj Hall Hrango.
    destruct (proj1 distancia_formula orden tamanos i j Hij Hj Hall)
      as (Lxi & Lxj & entre & d & H1 & H2 & H3 & Hd & Hval).
    pose proof (distancia_doble_exacta orden tamanos i j Hrango ltac:(lia)) as Hx.
    rewrite Hd in Hx. destruct Hx as (r & h & Hr & Hrd & _).
    exists Lxi, Lxj, entre, r. split_and!; [done..|]. by rewrite Hrd.
  - eexists. split; [vm_compute; reflexivity|]. reflexivity.
Qed.

Lemma distancia_doble_formula_witness :
  ∃ (Lxi Lxj : Z) (entre : list Z) (d : Q),
    [3; 0; 2; 1] !! 0 ≫= ([2; 4; 6; 8]%Z !!.) = Some Lxi ∧
    [3; 0; 2; 1] !! 3 ≫= ([2; 4; 6; 8]%Z !!.) = Some Lxj ∧
    mapM ([2; 4; 6; 8]%Z !!.) (estaciones_entre 0 3 [3; 0; 2; 1]) = Some entre ∧
    distancia_doble 0 3 [3; 0; 2; 1] [2; 4; 6; 8]%Z = Val (Finito d) ∧
    (d == inject_Z Lxi / 2 + inject_Z (suma_total entre) + inject_Z Lxj / 2)%Q.
Proof.
  apply (proj1 distancia_doble_formula [3; 0; 2; 1] [2; 4; 6; 8]%Z 0 3).
  - lia.
  - simpl. lia.
  - repeat constructor.
  - vm_compute. reflexivity.
Defined.

(** Without the bound on the sizes the formula fails: with two stations of
    size 2^53 + 1 the formula gives 2^53 + 1, and the code returns 2^53. *)
Lemma distancia_doble_redondea :
  ∃ d : Q,
    distancia_doble 0 1 [0; 1] [2 ^ 53 + 1; 2 ^ 53 + 1]%Z = Val (Finito d)
    ∧ (d == inject_Z (2 ^ 53))%Q
    ∧ ¬ (d == inject_Z (2 ^ 53 + 1) / 2 + inject_Z (suma_total [])
              + inject_Z (2 ^ 53 + 1) / 2)%Q.
Proof.
  eexists. split_and!; [vm_compute; reflexivity|reflexivity|].
  apply Qeq_bool_neq. vm_compute. reflexivity.
Qed.

(** C2. When the sizes and the preferences are in range
    ([2 * (1 + T) * (1 + W) <= 2^53], for [T] the total of the sizes along
    the ordering and [W] the total of the preferences read, in absolute
    value), the cost the code computes in doubles is the sum, over the pairs
    of positions [i < j] of the ordering, of the distance between the two
    positions times the entry [(i, j)] of the preference matrix: the matrix
    is indexed by position, not by the stations found there.  In any range,
    two matrices that agree above the diagonal give the same result. *)
Theorem evaluar_solucion_doble_suma_pares (orden : list nat)
    (preferencias : list (list Z)) (tamanos : list Z) :
  (∀ i j, (i, j) ∈ pares (length orden) ↔ i < j < length orden)
  ∧ NoDup (pares (length orden))
  ∧ (en_rango orden preferencias tamanos →
     coincide (evaluar_solucion_doble orden preferencias tamanos)
              (suma_pares orden preferencias tamanos))
  ∧ (∀ preferencias' : list (list Z),
       (∀ i j, i < j < length orden →
               entrada preferencias' i j = entrada preferencias i j) →
       evaluar_solucion_doble orden preferencias' tamanos
       = evaluar_solucion_doble orden preferencias tamanos).
Proof.
  split_and!.
  - intros i j. apply elem_of_pares.
  - apply NoDup_pares.
  - intros Hrango.
    apply (coincide_Qeq _ (evaluar_solucion orden preferencias tamanos)).
    + by apply evaluar_solucion_doble_exacta.
    + apply evaluar_solucion_suma_pares.
  - intros preferencias' Hagree. rewrite !evaluar_solucion_doble_pares.
    apply for_res_ext. intros [i j] a Hin. apply elem_of_pares in Hin.
    unfold termino_doble. cbn [fst snd]. by rewrite Hagree.
Qed.

Lemma evaluar_solucion_doble_suma_pares_witness :
  coincide
    (evaluar_solucion_doble [2; 0; 1] [[7; 1; 2]; [8; 7; 3]; [9; 9; 7]]%Z [2; 4; 6]%Z)
    (suma_pares [2; 0; 1] [[7; 1; 2]; [8; 7; 3]; [9; 9; 7]]%Z [2; 4; 6]%Z)
  ∧ evaluar_solucion_doble [2; 0; 1] [[0; 1; 2]; [0; 0; 3]]%Z [2; 4; 6]%Z
    = evaluar_solucion_doble [2; 0; 1] [[7; 1; 2]; [8; 7; 3]; [9; 9; 7]]%Z [2; 4; 6]%Z.
Proof.
  pose proof (evaluar_solucion_doble_suma_pares
                [2; 0; 1] [[7; 1; 2]; [8; 7; 3]; [9; 9; 7]]%Z [2; 4; 6]%Z)
    as (_ & _ & Hsum & Hind).
  split.
  - apply Hsum. vm_compute. discriminate.
  - apply Hind. intros i j Hij. simpl in Hij.
    assert (Hcases : (i = 0 ∧ j = 1) ∨ (i = 0 ∧ j = 2) ∨ (i = 1 ∧ j = 2)) by lia.
    destruct Hcases as [[-> ->]|[[-> ->]|[-> ->]]]; reflexivity.
Defined.

(** Without the bound the sum is not what the code returns: with sizes
    [3, 3] and the preference 2^53 + 1 the sum is 3 * (2^53 + 1), and the
    code returns 3 * 2^53, the preference having been rounded to a float. *)
Lemma evaluar_solucion_doble_redondea :
  evaluar_solucion_doble [0; 1] [[0; 2 ^ 53 + 1]]%Z [3; 3]%Z
  = Val (Finito (inject_Z 27021597764222976))
  ∧ (∃ s : Q, suma_pares [0; 1] [[0; 2 ^ 53 + 1]]%Z [3; 3]%Z = Some s
              ∧ (s == inject_Z 27021597764222979)%Q)
  ∧ ¬ coincide (evaluar_solucion_doble [0; 1] [[0; 2 ^ 53 + 1]]%Z [3; 3]%Z)
               (suma_pares [0; 1] [[0; 2 ^ 53 + 1]]%Z [3; 3]%Z).
Proof.
  assert (H1 : evaluar_solucion_doble [0; 1] [[0; 2 ^ 53 + 1]]%Z [3; 3]%Z
               = Val (Finito (inject_Z 27021597764222976)))
    by (vm_compute; reflexivity).
  assert (H2 : ∃ s : Q, suma_pares [0; 1] [[0; 2 ^ 53 + 1]]%Z [3; 3]%Z = Some s
                        ∧ Qeq_bool s (inject_Z 27021597764222979) = true)
    by (eexists; split; vm_compute; reflexivity).
  destruct H2 as (s & H2 & Hs). apply Qeq_bool_eq in Hs.
  split; [exact H1|]. split; [exists s; split; [exact H2|exact Hs]|].
  rewrite H1, H2. cbn [coincide]. intros Hc. 
  assert (Hd : (inject_Z 27021597764222976 == inject_Z 27021597764222979)%Q)
    by (apply (Qeq_trans _ _ _ Hc Hs)).
  revert Hd. apply Qeq_bool_neq. vm_compute. reflexivity.
Qed.




(** X2. Distances add up along the line: for positions [i < k < j] of an
    ordering whose stations all have a size, with twice the total of the
    sizes below 2^53, the distance in doubles from [i] to [j] is the
    distance from [i] to [k] plus the distance from [k] to [j]. *)
Theorem distancia_doble_aditiva (orden : list nat) (tamanos : list Z) (i k j : nat) :
  i < k < j → j < length orden → Forall (λ x, x < length tamanos) orden →
  tamanos_en_rango orden tamanos →
  ∃ dij dik dkj : Q,
    distancia_doble i j orden tamanos = Val (Finito dij)
    ∧ distancia_doble i k orden tamanos = Val (Finito dik)
    ∧ distancia_doble k j orden tamanos = Val (Finito dkj)
    ∧ (dij == dik + dkj)%Q.
Proof.
  intros Hik Hj Hall Hrango.
  destruct (distancia_aditiva orden tamanos i k j Hik Hj Hall)
    as (dij & dik & dkj & Hij' & Hik' & Hkj' & Hsum).
  pose proof (distancia_doble_exacta orden tamanos i j Hrango ltac:(lia)) as H1.
  pose proof (distancia_doble_exacta orden tamanos i k Hrango ltac:(lia)) as H2.
  pose proof (distancia_doble_exacta orden tamanos k j Hrango ltac:(lia)) as H3.
  rewrite Hij' in H1. rewrite Hik' in H2. rewrite Hkj' in H3.
  destruct H1 as (r1 & ? & -> & E1 & _). destruct H2 as (r2 & ? & -> & E2 & _).
  destruct H3 as (r3 & ? & -> & E3 & _).
  exists r1, r2, r3. split_and!; [done..|]. by rewrite E1, E2, E3.
Qed.

Lemma distancia_doble_aditiva_witness :
  ∃ dij dik dkj : Q,
    distancia_doble 0 4 [4; 2; 0; 1; 3] [2; 3; 5; 7; 11]%Z = Val (Finito dij)
    ∧ distancia_doble 0 2 [4; 2; 0; 1; 3] [2; 3; 5; 7; 11]%Z = Val (Finito dik)
    ∧ distancia_doble 2 4 [4; 2; 0; 1; 3] [2; 3; 5; 7; 11]%Z = Val (Finito dkj)
    ∧ (dij == dik + dkj)%Q.
Proof.
  apply (distancia_doble_aditiva [4; 2; 0; 1; 3] [2; 3; 5; 7; 11]%Z 0 2 4).
  - lia.
  - simpl. lia.
  - repeat constructor.
  - vm_compute. reflexivity.
Defined.

(** X3. For sizes and preferences in range, the code returns a finite cost
    exactly when the ordering has at most one station (nothing is read
    then), or every station of the ordering has a size and the preference
    matrix has an entry for every pair of positions [i < j]; otherwise it
    raises [IndexError]. *)
Theorem evaluar_solucion_doble_definida (orden : list nat)
    (preferencias : list (list Z)) (tamanos : list Z) :
  en_rango orden preferencias tamanos →
  ((∃ c : Q, evaluar_solucion_doble orden preferencias tamanos = Val (Finito c))
   ↔ length orden ≤ 1
     ∨ (Forall (λ x, x < length tamanos) orden
        ∧ ∀ i j, i < j < length orden → is_Some (entrada preferencias i j)))
  ∧ (evaluar_solucion_doble orden preferencias tamanos = Err FIndexError
     ↔ ¬ (length orden ≤ 1
          ∨ (Forall (λ x, x < length tamanos) orden
             ∧ ∀ i j, i < j < length orden → is_Some (entrada preferencias i j)))).
Proof.
  intros Hrango.
  pose proof (evaluar_solucion_doble_exacta orden preferencias tamanos Hrango) as Hx.
  rewrite <- evaluar_solucion_definida.
  destruct (evaluar_solucion orden preferencias tamanos) as [q|] eqn:Hq.
  - destruct (coincide_Some _ _ _ Hx eq_refl) as (x & -> & _). split.
    + split; [by eexists|by exists x].
    + split; [done|]. intros Hn. destruct Hn. by eexists.
  - rewrite (coincide_None _ _ Hx eq_refl). split.
    + split; [by intros [c [=]]|by intros [? [=]]].
    + split; [|done]. intros _ [? [=]].
Qed.

Lemma evaluar_solucion_doble_definida_witness :
  (∃ c : Q, evaluar_solucion_doble [1; 0; 2] [[0; 1; 2]; [0; 0; 3]]%Z [2; 4; 6]%Z
            = Val (Finito c))
  ∧ evaluar_solucion_doble [1; 0; 3] [[0; 1; 2]; [0; 0; 3]]%Z [2; 4; 6]%Z
    = Err FIndexError.
Proof.
  split.
  - apply (evaluar_solucion_doble_definida [1; 0; 2] [[0; 1; 2]; [0; 0; 3]]%Z
             [2; 4; 6]%Z); [vm_compute; discriminate|].
    right. split; [repeat constructor|].
    intros i j Hij. simpl in Hij.
    assert (Hcases : (i = 0 ∧ j = 1) ∨ (i = 0 ∧ j = 2) ∨ (i = 1 ∧ j = 2)) by lia.
    destruct Hcases as [[-> ->]|[[-> ->]|[-> ->]]]; by eexists.
  - apply (evaluar_solucion_doble_definida [1; 0; 3] [[0; 1; 2]; [0; 0; 3]]%Z
             [2; 4; 6]%Z); [vm_compute; discriminate|].
    intros [Hlen|[Hall _]]; [simpl in Hlen; lia|].
    rewrite list.Forall_forall in Hall. specialize (Hall 3). simpl in Hall.
    assert (3 < 3) by (apply Hall; repeat constructor). lia.
Defined.

(** X4. For sizes and preferences in range, when no size is negative and
    no preference read by the evaluator (an entry [(i, j)] with [i < j]) is
    negative, the cost the code returns is not negative. *)
Theorem evaluar_solucion_doble_no_negativa (orden : list nat)
    (preferencias : list (list Z)) (tamanos : list Z) (c : Q) :
  en_rango orden preferencias tamanos →
  Forall (λ z, (0 ≤ z)%Z) tamanos →
  (∀ i j p, i < j < length orden → entrada preferencias i j = Some p → (0 ≤ p)%Z) →
  evaluar_solucion_doble orden preferencias tamanos = Val (Finito c) → (0 <= c)%Q.
Proof.
  intros Hrango Hnn Hpref Hc.
  pose proof (evaluar_solucion_doble_exacta orden preferencias tamanos Hrango) as Hx.
  destruct (coincide_Val _ _ _ Hx Hc) as (q & Hq & Hcq).
  rewrite Hcq. by apply (evaluar_solucion_no_negativa orden preferencias tamanos).
Qed.

Lemma evaluar_solucion_doble_no_negativa_witness :
  ∃ c : Q, evaluar_solucion_doble [1; 0] [[0; 3]; [-5; 0]]%Z [2; 3]%Z = Val (Finito c)
           ∧ (0 <= c)%Q.
Proof.
  eexists. split; [vm_compute; reflexivity|].
  apply (evaluar_solucion_doble_no_negativa [1; 0] [[0; 3]; [-5; 0]]%Z [2; 3]%Z).
  - vm_compute. discriminate.
  - repeat constructor; lia.
  - intros i j p Hij. simpl in Hij.
    assert (i = 0 ∧ j = 1) as [-> ->] by lia. intros [= <-]. lia.
  - vm_compute. reflexivity.
Defined.

(** ** Edge cases of crossover and mutation *)

Lemma filter_resto (p : nat) (a : list nat) :
  NoDup a → filter (λ gen, gen ∉ take p a) a = drop p a.
Proof.
  intros Hnd. set (P := λ gen, gen ∉ take p a).
  assert (Hfil : filter P (take p a ++ drop p a) = drop p a).
  { rewrite <- (take_drop p a) in Hnd.
    apply list.NoDup_app in Hnd as (_ & Hdis & _).
    rewrite list.filter_app, filter_ninguno, filter_todos; [done| |].
    - apply list.Forall_forall. intros x Hx Hin. by apply (Hdis x).
    - apply list.Forall_forall. intros x Hx. unfold P. tauto. }
  by rewrite take_drop in Hfil.
Qed.

Lemma hijo_de_mismo (p : nat) (a : list nat) : NoDup a → hijo_de p a a = a.
Proof.
  intros Hnd. unfold hijo_de. rewrite filter_resto by done. apply take_drop.
Qed.

(** X5. Crossing two parents that hold the same ordering, without repeated
    stations, gives two children that hold that ordering again, whatever the
    crossover point: crossover alone brings no variety into a population of
    identical candidates.  The objects that existed before are untouched. *)
Theorem cruce_padres_iguales (padre1 padre2 : loc) (a : list nat) (h : loc * loc)
    (s s' : state) :
  heap s !! padre1 = Some a → heap s !! padre2 = Some a → NoDup a →
  cruce padre1 padre2 s = Ok h s' →
  heap s' !! h.1 = Some a ∧ heap s' !! h.2 = Some a
  ∧ h.1 ≠ h.2 ∧ heap s !! h.1 = None ∧ heap s !! h.2 = None
  ∧ ∀ r, r < length (heap s) → heap s' !! r = heap s !! r.
Proof.
  intros H1 H2 Hnd H.
  apply cruce_Ok in H as (p1 & p2 & p & t & H1' & H2' & _ & _ & -> & ->).
  assert (p1 = a) as -> by congruence. assert (p2 = a) as -> by congruence.
  rewrite hijo_de_mismo by done. cbn [heap fst snd]. split_and!.
  - by apply list_lookup_middle.
  - rewrite lookup_app_r by lia.
    by replace (S (length (heap s)) - length (heap s)) with 1 by lia.
  - lia.
  - apply lookup_ge_None. lia.
  - apply lookup_ge_None. lia.
  - intros r Hr. by rewrite lookup_app_l.
Qed.

Lemma cruce_padres_iguales_witness :
  ∃ h s',
    cruce 0 1 (State [[2; 0; 1]; [2; 0; 1]] [DInt 2]) = Ok h s'
    ∧ heap s' !! h.1 = Some [2; 0; 1] ∧ heap s' !! h.2 = Some [2; 0; 1].
Proof.
  eexists _, _. split; [vm_compute; reflexivity|].
  pose proof (cruce_padres_iguales 0 1 [2; 0; 1] (2, 3)
    (State [[2; 0; 1]; [2; 0; 1]] [DInt 2])
    (State [[2; 0; 1]; [2; 0; 1]; [2; 0; 1]; [2; 0; 1]] [])
    eq_refl eq_refl) as H.
  destruct H as (Ha & Hb & _); [compute_done|vm_compute; reflexivity|].
  by split.
Defined.

(** X6. Crossover raises [ValueError] when the first parent has fewer than
    two genes, whatever the random source would give: there is no crossover
    point in [1, L-1].  The length of the second parent plays no part. *)
Theorem cruce_padre_corto (padre1 padre2 : loc) (p1 : list nat) (s : state) :
  heap s !! padre1 = Some p1 → is_Some (heap s !! padre2) → length p1 ≤ 1 →
  cruce padre1 padre2 s = Raise ValueError.
Proof.
  intros H1 [p2 H2] Hlen. unfold cruce.
  rewrite (bind_run (deref padre1) _ s p1 s) by by apply deref_Ok.
  rewrite (bind_run (deref padre2) _ s p2 s) by by apply deref_Ok.
  unfold mbind, M_bind, random_randint. by rewrite decide_True by lia.
Qed.

Lemma cruce_padre_corto_witness :
  cruce 0 1 (State [[0]; [0; 1; 2]] [DInt 1]) = Raise ValueError.
Proof.
  apply (cruce_padre_corto 0 1 [0] (State [[0]; [0; 1; 2]] [DInt 1])).
  - reflexivity.
  - by eexists.
  - simpl. lia.
Defined.

(** X7. Mutation raises [ValueError] on an individual with fewer than two
    genes, whatever the random source would give, and leaves it as it was. *)
Theorem mutacion_individuo_corto (individuo : loc) (l : list nat) (s : state) :
  heap s !! individuo = Some l → length l ≤ 1 →
  mutacion individuo s = Raise ValueError.
Proof.
  intros Hl Hlen. unfold mutacion.
  rewrite (bind_run (deref individuo) _ s l s) by by apply deref_Ok.
  unfold mbind, M_bind, random_sample. by rewrite decide_True by lia.
Qed.

Lemma mutacion_individuo_corto_witness :
  mutacion 0 (State [[0]] [DSample [0; 0]]) = Raise ValueError.
Proof.
  apply (mutacion_individuo_corto 0 [0] (State [[0]] [DSample [0; 0]])).
  - reflexivity.
  - simpl. lia.
Defined.

Lemma mutacion_run (individuo : loc) (l l' : list nat) (i1 i2 : nat)
    (t : list draw) (s : state) :
  heap s !! individuo = Some l → tape s = DSample [i1; i2] :: t →
  i1 ≠ i2 → i1 < length l → i2 < length l →
  intercambiar i1 i2 l = Some l' →
  mutacion individuo s = Ok individuo (State (<[individuo:=l']> (heap s)) t).
Proof.
  intros Hl Ht Hne Hi1 Hi2 Hsw. unfold mutacion.
  rewrite (bind_run (deref individuo) _ s l s) by by apply deref_Ok.
  assert (Hs : random_sample (length l) 2 s = Ok [i1; i2] (State (heap s) t)).
  { apply random_sample_Ok. split_and!; [lia|done| | |eauto].
    - apply list.NoDup_cons. split; [by intros ->%list_elem_of_singleton|].
      apply NoDup_singleton.
    - by repeat constructor. }
  rewrite (bind_run _ _ _ _ _ Hs). rewrite Hsw.
  by rewrite (bind_run (try (Some l')) _ _ l' _ eq_refl).
Qed.

Lemma intercambiar_involucion (i1 i2 : nat) (l l' : list nat) :
  intercambiar i1 i2 l = Some l' → intercambiar i1 i2 l' = Some l.
Proof.
  unfold intercambiar.
  destruct (l !! i2) as [v2|] eqn:H2; cbn [mbind option_bind]; [|done].
  destruct (l !! i1) as [v1|] eqn:H1; cbn [mbind option_bind]; [|done].
  intros [= <-].
  pose proof (lookup_lt_Some _ _ _ H1) as Hlt1.
  pose proof (lookup_lt_Some _ _ _ H2) as Hlt2.
  rewrite list_lookup_insert_eq by by rewrite length_insert.
  cbn [mbind option_bind].
  destruct (decide (i1 = i2)) as [->|Hne].
  - rewrite list_lookup_insert_eq by by rewrite length_insert.
    cbn [mbind option_bind].
    f_equal. assert (v1 = v2) as -> by congruence.
    rewrite !(list_insert_id _ i2 v2); try done.
    all: by apply list_lookup_insert_eq; rewrite ?length_insert.
  - rewrite list_lookup_insert_ne by done.
    rewrite list_lookup_insert_eq by done. cbn [mbind option_bind]. f_equal.
    apply list_eq. intros k.
    destruct (decide (k = i2)) as [->|Hk2].
    { rewrite list_lookup_insert_eq by by rewrite !length_insert. done. }
    rewrite list_lookup_insert_ne by done.
    destruct (decide (k = i1)) as [->|Hk1].
    { rewrite list_lookup_insert_eq by by rewrite !length_insert. done. }
    by rewrite !list_lookup_insert_ne.
Qed.

(** X8. Mutating an individual twice at the same two positions gives back
    the individual: after the two calls the heap is what it was. *)
Theorem mutacion_dos_veces (individuo : loc) (l : list nat) (i1 i2 : nat)
    (t : list draw) (s : state) :
  heap s !! individuo = Some l →
  tape s = DSample [i1; i2] :: DSample [i1; i2] :: t →
  i1 ≠ i2 → i1 < length l → i2 < length l →
  (r ← mutacion individuo; mutacion r) s = Ok individuo (State (heap s) t).
Proof.
  intros Hl Ht Hne Hi1 Hi2.
  destruct (intercambiar_spec i1 i2 l Hne Hi1 Hi2) as (l' & Hsw & _ & _ & _ & Hlen & _).
  rewrite (bind_run _ _ _ _ _
             (mutacion_run individuo l l' i1 i2 _ s Hl Ht Hne Hi1 Hi2 Hsw)).
  pose proof (lookup_lt_Some _ _ _ Hl) as Hlt.
  rewrite (mutacion_run individuo l' l i1 i2 t); cbn [heap tape];
    [|by apply list_lookup_insert_eq|done|done|lia|lia
     |by apply intercambiar_involucion].
  by rewrite list_insert_insert_eq, list_insert_id.
Qed.

Lemma mutacion_dos_veces_witness :
  (r ← mutacion 1; mutacion r)
    (State [[0; 1]; [3; 1; 0; 2]] [DSample [0; 2]; DSample [0; 2]; DUnit 0])
  = Ok 1 (State [[0; 1]; [3; 1; 0; 2]] [DUnit 0]).
Proof.
  apply (mutacion_dos_veces 1 [3; 1; 0; 2] 0 2 [DUnit 0]
           (State [[0; 1]; [3; 1; 0; 2]] [DSample [0; 2]; DSample [0; 2]; DUnit 0])).
  - reflexivity.
  - reflexivity.
  - lia.
  - simpl. lia.
  - simpl. lia.
Defined.

(** X9. A successful mutation of an ordering without repeated stations
    always changes it: the individual never comes out as it went in. *)
Theorem mutacion_cambia (individuo r : loc) (l : list nat) (s s' : state) :
  heap s !! individuo = Some l → NoDup l →
  mutacion individuo s = Ok r s' →
  ∃ l', heap s' !! individuo = Some l' ∧ l' ≠ l.
Proof.
  intros Hl Hnd H.
  apply mutacion_Ok in H
    as (l0 & l' & i1 & i2 & t & Hl0 & _ & Hne & Hi1 & Hi2 & Hsw & -> & ->).
  assert (l0 = l) as -> by congruence. cbn [heap].
  exists l'. split.
  - apply list_lookup_insert_eq. by eapply lookup_lt_Some.
  - intros ->.
    destruct (intercambiar_spec i1 i2 l Hne Hi1 Hi2) as (l'' & Hsw' & H12 & _).
    assert (l'' = l) as -> by congruence.
    destruct (lookup_lt_is_Some_2 l i1 Hi1) as [x Hx].
    rewrite Hx in H12. symmetry in H12.
    apply Hne. by apply (NoDup_lookup l i1 i2 x).
Qed.

Lemma mutacion_cambia_witness :
  ∃ l', heap (State [[1; 0; 2]] []) !! 0 = Some l' ∧ l' ≠ [0; 1; 2].
Proof.
  apply (mutacion_cambia 0 0 [0; 1; 2] (State [[0; 1; 2]] [DSample [1; 0]])
           (State [[1; 0; 2]] [])).
  - reflexivity.
  - compute_done.
  - reflexivity.
Defined.

(** ** A generation leaves the old population alone *)

Lemma intacto_length (h h' : list (list nat)) : intacto h h' → length h ≤ length h'.
Proof.
  intros H. destruct (decide (length h = 0)) as [|Hne]; [lia|].
  assert (Hr : length h - 1 < length h) by lia.
  destruct (lookup_lt_is_Some_2 h _ Hr) as [l Hl].
  rewrite <- (H _ Hr) in Hl. apply lookup_lt_Some in Hl. lia.
Qed.

Lemma intacto_refl (h : list (list nat)) : intacto h h.
Proof. by intros r _. Qed.

Lemma intacto_trans (h1 h2 h3 : list (list nat)) :
  intacto h1 h2 → intacto h2 h3 → intacto h1 h3.
Proof.
  intros H12 H23 r Hr. rewrite <- (H12 r Hr). apply H23.
  apply intacto_length in H12. lia.
Qed.

Lemma intacto_app (h k : list (list nat)) : intacto h (h ++ k).
Proof. intros r Hr. by rewrite lookup_app_l. Qed.

Lemma intacto_insert (h h' : list (list nat)) (r : loc) (l : list nat) :
  intacto h h' → length h ≤ r → intacto h (<[r:=l]> h').
Proof.
  intros H Hr r0 Hr0. rewrite list_lookup_insert_ne by lia. by apply H.
Qed.

Lemma seleccion_torneo_intacto (poblacion : list loc) (fitness : list Q) (k : nat)
    (r : loc) (s s' : state) :
  seleccion_torneo poblacion fitness k s = Ok r s' →
  intacto (heap s) (heap s') ∧ length (heap s) ≤ r.
Proof.
  intros (_ & torneo & t & g & r0 & l & _ & _ & _ & _ & -> & ->)%seleccion_torneo_Ok.
  cbn [heap]. split; [apply intacto_app|lia].
Qed.

Lemma copy_intacto (r r' : loc) (s s' : state) :
  copy r s = Ok r' s' → intacto (heap s) (heap s') ∧ length (heap s) ≤ r'.
Proof.
  intros (l & _ & -> & ->)%copy_Ok. cbn [heap]. split; [apply intacto_app|lia].
Qed.

Lemma hijos_intacto (b : bool) (padre1 padre2 : loc) (h : loc * loc) (s s' : state) :
  (if b then cruce padre1 padre2
   else h1 ← copy padre1; h2 ← copy padre2; mret (h1, h2)) s = Ok h s' →
  intacto (heap s) (heap s') ∧ length (heap s) ≤ h.1 ∧ length (heap s) ≤ h.2.
Proof.
  intros H. destruct b.
  - apply cruce_Ok in H as (p1 & p2 & p & t & _ & _ & _ & _ & -> & ->).
    cbn [heap fst snd]. split_and!; [apply intacto_app|lia..].
  - apply bind_Ok in H as (h1 & s1 & [K1 Hh1]%copy_intacto & H).
    apply bind_Ok in H as (h2 & s2 & [K2 Hh2]%copy_intacto & [<- <-]%ret_Ok).
    cbn [fst snd]. pose proof (intacto_length _ _ K1).
    split_and!; [by eapply intacto_trans|lia..].
Qed.

Lemma mutar_intacto (h0 : list (list nat)) (b : bool) (hijo n : loc) (s s' : state) :
  intacto h0 (heap s) → length h0 ≤ hijo →
  (if b then mutacion hijo else mret hijo) s = Ok n s' →
  intacto h0 (heap s') ∧ n = hijo.
Proof.
  intros K Hh H. destruct b.
  - apply mutacion_Ok in H as (l & l' & i1 & i2 & t & _ & _ & _ & _ & _ & _ & -> & ->).
    cbn [heap]. split; [by apply intacto_insert|done].
  - by apply ret_Ok in H as [<- <-].
Qed.

Lemma reproducir_intacto (fuel : nat) (poblacion : list loc) (fitness : list Q)
    (nueva res : list loc) (h0 : list (list nat)) (s s' : state) :
  intacto h0 (heap s) → Forall (λ r, length h0 ≤ r) nueva →
  reproducir fuel poblacion fitness nueva s = Ok res s' →
  intacto h0 (heap s') ∧ Forall (λ r, length h0 ≤ r) res.
Proof.
  revert nueva s. induction fuel as [|fuel IH]; intros nueva s K0 Hnueva H.
  - cbn [reproducir] in H. destruct (decide _); [done|].
    by apply ret_Ok in H as [<- <-].
  - destruct (decide (length nueva < length poblacion)) as [Hlt|Hge].
    2:{ cbn [reproducir] in H. rewrite decide_False in H by done.
        by apply ret_Ok in H as [<- <-]. }
    apply reproducir_paso in H
      as (padre1 & s1 & padre2 & s2 & u & s3 & [hijo1 hijo2] & s4 & u1 & s5
          & n1 & s6 & u2 & s7 & n2 & s8
          & H1 & H2 & H3 & H4 & H5 & H6 & H7 & H8 & H); [|done].
    cbn [fst snd] in *.
    apply seleccion_torneo_intacto in H1 as [K1 _].
    apply seleccion_torneo_intacto in H2 as [K2 _].
    apply random_random_heap in H3. rewrite <- H3 in K2.
    apply hijos_intacto in H4 as (K4 & Hh1 & Hh2). cbn [fst snd] in *.
    apply random_random_heap in H5. rewrite <- H5 in K4.
    assert (K5 : intacto h0 (heap s5)).
    { repeat (eapply intacto_trans; [eassumption|]). apply intacto_refl. }
    pose proof (intacto_length _ _ K0) as L0.
    pose proof (intacto_length _ _ K1) as L1.
    pose proof (intacto_length _ _ K2) as L2.
    apply (mutar_intacto h0) in H6 as [K6 ->]; [|done|lia].
    apply random_random_heap in H7. rewrite <- H7 in K6.
    apply (mutar_intacto h0) in H8 as [K8 ->]; [|done|lia].
    apply (IH (nueva ++ [hijo1; hijo2]) s8); [done| |done].
    apply Forall_app. split; [done|]. repeat constructor; lia.
Qed.

Lemma mapM_evaluar_fitness (preferencias : list (list Z)) (tamanos : list Z)
    (poblacion : list loc) (fitness : list Q) (s s' : state) :
  mapM (evaluar preferencias tamanos) poblacion s = Ok fitness s' →
  fitness_de preferencias tamanos s poblacion = Some fitness
  ∧ Forall (λ r, r < length (heap s)) poblacion.
Proof.
  revert fitness s'. unfold fitness_de.
  induction poblacion as [|r pob IH]; intros fitness s'; cbn [mapM].
  - intros [<- <-]%ret_Ok. by split.
  - intros (q & s1 & [-> (l & Hl & Hq)]%evaluar_Ok & H)%bind_Ok.
    apply bind_Ok in H as (fit & s2 & [Hfit Hlive]%IH & [<- <-]%ret_Ok).
    split.
    + rewrite Hl. cbn [mbind option_bind]. rewrite Hq. cbn [mbind option_bind].
      by rewrite Hfit.
    + constructor; [by eapply lookup_lt_Some|done].
Qed.



(** ** The size of the population over a whole run *)

Lemma generacion_length (preferencias : list (list Z)) (tamanos : list Z)
    (poblacion nueva : list loc) (fitness : list Q) (s s' : state) :
  generacion preferencias tamanos poblacion s = Ok (nueva, fitness) s' →
  length fitness = length poblacion
  ∧ ∃ k, length nueva = 2 * k ∧ length poblacion ≤ 2 * k < length poblacion + 2.
Proof.
  intros [Hfit H]%generacion_Ok.
  apply mapM_evaluar_Ok in Hfit as [_ Hfit].
  apply reproducir_length in H as (k & Hk & Hle & Hstop). simpl in Hk.
  split; [done|]. exists k. lia.
Qed.

(** X11. Over a whole run the population grows at most once, and by one:
    after any positive number of generations its size is the initial size
    [M] when [M] is even and [M + 1] when [M] is odd.  From the second
    generation on the fitness vector kept by the loop has the size of the
    population. *)
Theorem evolucionar_tamano (preferencias : list (list Z)) (tamanos : list Z)
    (g : nat) (poblacion final : list loc) (fitness fitness' : option (list Q))
    (s s' : state) :
  evolucionar preferencias tamanos g poblacion fitness s = Ok (final, fitness') s' →
  (g = 0 → final = poblacion ∧ fitness' = fitness)
  ∧ (1 ≤ g → Nat.Even (length poblacion) → length final = length poblacion)
  ∧ (1 ≤ g → Nat.Odd (length poblacion) → length final = S (length poblacion))
  ∧ (2 ≤ g → ∃ fit, fitness' = Some fit ∧ length fit = length final).
Proof.
  revert poblacion fitness s.
  induction g as [|g IH]; intros poblacion fitness s H.
  - cbn [evolucionar] in H. apply ret_Ok in H as [[= <- <-] _].
    split_and!; [done|lia..].
  - cbn [evolucionar] in H. apply bind_Ok in H as ([nueva fit] & s1 & Hgen & H).
    apply generacion_length in Hgen as (Hfit & k & Hk & Hle).
    destruct (IH _ _ _ H) as (H0 & Hev & Hodd & Hfit').
    assert (Hfinal : length final = length nueva).
    { destruct g as [|g]; [by destruct H0 as [-> _]|].
      apply Hev; [lia|]. by exists k. }
    split_and!.
    + lia.
    + intros _ [m Hm]. lia.
    + intros _ [m Hm]. lia.
    + intros Hg. destruct g as [|[|g]]; [lia| |].
      * cbn [evolucionar] in H.
        apply bind_Ok in H as ([nueva' fit'] & s2 & Hgen' & [[= <- <-] _]%ret_Ok).
        apply generacion_length in Hgen' as (Hfit2 & _). exists fit'. split; [done|].
        lia.
      * apply Hfit'. lia.
Qed.

Lemma evolucionar_tamano_witness :
  ∃ final fitness' s',
    evolucionar preferencias_ej tamanos_ej 2 [0; 1; 2] None
      (State (replicate 3 (seq 0 6))
             (paso_cruzado ++ paso_quieto ++ paso_mutado ++ paso_quieto))
    = Ok (final, fitness') s'
    ∧ length final = 4.
Proof.
  eexists _, _, _. split; [vm_compute; reflexivity|].
  refine (proj1 (proj2 (proj2 (evolucionar_tamano preferencias_ej tamanos_ej 2
    [0; 1; 2] _ None _
    (State (replicate 3 (seq 0 6))
           (paso_cruzado ++ paso_quieto ++ paso_mutado ++ paso_quieto)) _ _))) _ _).
  - vm_compute. reflexivity.
  - lia.
  - exists 1. reflexivity.
Defined.

(** ** What [main] reports *)



(** ** Too few stations *)

Lemma inicializar_poblacion_run (num_puestos : Z) (s : state) :
  let m := Z.to_nat (int (inject_Z num_puestos * (5 # 10))) in
  inicializar_poblacion num_puestos s
  = Ok (seq (length (heap s)) m)
       (State (heap s ++ replicate m (range 0 (Z.to_nat num_puestos))) (tape s)).
Proof.
  intros m. unfold inicializar_poblacion. cbv zeta. rewrite mapM_alloc.
  assert (Hlen : length (range 0 m) = m).
  { unfold range. rewrite length_seq. lia. }
  fold m. by rewrite Hlen.
Qed.

Lemma int_mitad_pequena (z : Z) :
  (z < 6)%Z →
  Z.to_nat (int (inject_Z z * (5 # 10))) < 3
  ∧ ((z ≤ 1)%Z → Z.to_nat (int (inject_Z z * (5 # 10))) = 0)
  ∧ ((2 ≤ z)%Z → 0 < Z.to_nat (int (inject_Z z * (5 # 10)))).
Proof.
  intros Hz. unfold int. simpl.
  Z.quot_rem_to_equations. lia.
Qed.

Lemma evolucionar_vacia (preferencias : list (list Z)) (tamanos : list Z)
    (g : nat) (fitness : option (list Q)) (s : state) :
  evolucionar preferencias tamanos (S g) [] fitness s = Ok ([], Some []) s.
Proof.
  revert fitness. induction g as [|g IH]; intros fitness; [done|].
  change (evolucionar preferencias tamanos (S (S g)) [] fitness s)
    with (evolucionar preferencias tamanos (S g) [] (Some []) s).
  apply IH.
Qed.

Lemma mapM_evaluar_identicos (preferencias : list (list Z)) (tamanos : list Z)
    (poblacion : list loc) (l : list nat) (s : state) :
  poblacion ≠ [] → Forall (λ r, heap s !! r = Some l) poblacion →
  mapM (evaluar preferencias tamanos) poblacion s
  = match evaluar_solucion l preferencias tamanos with
    | Some c => Ok (replicate (length poblacion) c) s
    | None => Raise IndexError
    end.
Proof.
  intros Hne Hall.
  assert (Hev : ∀ r, heap s !! r = Some l →
    evaluar preferencias tamanos r s
    = match evaluar_solucion l preferencias tamanos with
      | Some c => Ok c s | None => Raise IndexError end).
  { intros r Hr. unfold evaluar.
    rewrite (bind_run (deref r) _ s l s) by by apply deref_Ok.
    by destruct (evaluar_solucion l preferencias tamanos). }
  destruct (evaluar_solucion l preferencias tamanos) as [c|].
  - clear Hne. induction Hall as [|r pob Hr _ IH]; [done|].
    cbn [mapM]. rewrite (bind_run _ _ _ _ _ (Hev r Hr)).
    by rewrite (bind_run _ _ _ _ _ IH).
  - destruct Hall as [|r pob Hr _]; [done|].
    cbn [mapM]. unfold mbind at 1, M_bind at 1. by rewrite (Hev r Hr).
Qed.

Lemma reproducir_pequena (poblacion : list loc) (fitness : list Q) (s : state) :
  0 < length poblacion < 3 →
  reproducir (length poblacion) poblacion fitness [] s = Raise ValueError.
Proof.
  intros Hlen. destruct (length poblacion) as [|n] eqn:Hn; [lia|].
  cbn [reproducir]. rewrite Hn. rewrite decide_True by (simpl; lia).
  unfold mbind at 1, M_bind at 1. unfold seleccion_torneo.
  unfold mbind at 1, M_bind at 1. unfold random_sample.
  rewrite Hn. by rewrite decide_True by lia.
Qed.

Lemma generacion_pequena (preferencias : list (list Z)) (tamanos : list Z)
    (poblacion : list loc) (l : list nat) (s : state) :
  0 < length poblacion < 3 → Forall (λ r, heap s !! r = Some l) poblacion →
  generacion preferencias tamanos poblacion s
  = match evaluar_solucion l preferencias tamanos with
    | Some _ => Raise ValueError
    | None => Raise IndexError
    end.
Proof.
  intros Hlen Hall. unfold generacion. unfold mbind at 1, M_bind at 1.
  rewrite (mapM_evaluar_identicos preferencias tamanos poblacion l s);
    [|intros ->; simpl in Hlen; lia|done].
  destruct (evaluar_solucion l preferencias tamanos) as [c|]; [|done].
  unfold mbind at 1, M_bind at 1. by rewrite reproducir_pequena.
Qed.

Lemma evolucionar_Raise (preferencias : list (list Z)) (tamanos : list Z)
    (g : nat) (poblacion : list loc) (fitness : option (list Q)) (e : exn)
    (s : state) :
  generacion preferencias tamanos poblacion s = Raise e →
  evolucionar preferencias tamanos (S g) poblacion fitness s = Raise e.
Proof.
  intros H. cbn [evolucionar]. unfold mbind at 1, M_bind at 1. by rewrite H.
Qed.



(** ** No two places of a population share an object *)

Lemma hijos_frescos (b : bool) (padre1 padre2 : loc) (h : loc * loc) (s s' : state) :
  (if b then cruce padre1 padre2
   else h1 ← copy padre1; h2 ← copy padre2; mret (h1, h2)) s = Ok h s' →
  length (heap s) ≤ h.1 < length (heap s')
  ∧ length (heap s) ≤ h.2 < length (heap s') ∧ h.1 ≠ h.2.
Proof.
  intros H. destruct b.
  - apply cruce_Ok in H as (p1 & p2 & p & t & _ & _ & _ & _ & -> & ->).
    cbn [heap fst snd]. rewrite length_app. simpl. lia.
  - apply bind_Ok in H as (h1 & s1 & (l1 & _ & -> & ->)%copy_Ok & H).
    apply bind_Ok in H as (h2 & s2 & (l2 & _ & -> & ->)%copy_Ok & [<- <-]%ret_Ok).
    cbn [heap fst snd]. rewrite !length_app. simpl. lia.
Qed.

Lemma mutar_length (b : bool) (hijo n : loc) (s s' : state) :
  (if b then mutacion hijo else mret hijo) s = Ok n s' →
  length (heap s') = length (heap s) ∧ n = hijo.
Proof.
  intros H. destruct b.
  - apply mutacion_Ok in H as (l & l' & i1 & i2 & t & _ & _ & _ & _ & _ & _ & -> & ->).
    cbn [heap]. by rewrite length_insert.
  - by apply ret_Ok in H as [<- <-].
Qed.

Lemma reproducir_sin_alias (fuel : nat) (poblacion : list loc) (fitness : list Q)
    (nueva res : list loc) (s s' : state) :
  NoDup nueva → Forall (λ r, r < length (heap s)) nueva →
  reproducir fuel poblacion fitness nueva s = Ok res s' →
  NoDup res ∧ Forall (λ r, r < length (heap s')) res.
Proof.
  revert nueva s. induction fuel as [|fuel IH]; intros nueva s Hnd Hlive H.
  - cbn [reproducir] in H. destruct (decide _); [done|].
    by apply ret_Ok in H as [<- <-].
  - destruct (decide (length nueva < length poblacion)) as [Hlt|Hge].
    2:{ cbn [reproducir] in H. rewrite decide_False in H by done.
        by apply ret_Ok in H as [<- <-]. }
    apply reproducir_paso in H
      as (padre1 & s1 & padre2 & s2 & u & s3 & [hijo1 hijo2] & s4 & u1 & s5
          & n1 & s6 & u2 & s7 & n2 & s8
          & H1 & H2 & H3 & H4 & H5 & H6 & H7 & H8 & H); [|done].
    cbn [fst snd] in *.
    apply seleccion_torneo_intacto in H1 as [L1%intacto_length _].
    apply seleccion_torneo_intacto in H2 as [L2%intacto_length _].
    apply random_random_heap in H3.
    apply hijos_frescos in H4 as (Hh1 & Hh2 & Hne). cbn [fst snd] in *.
    apply random_random_heap in H5.
    apply mutar_length in H6 as [L6 ->].
    apply random_random_heap in H7.
    apply mutar_length in H8 as [L8 ->].
    rewrite H3 in Hh1, Hh2. rewrite H5 in L6. rewrite H7 in L8.
    apply (IH (nueva ++ [hijo1; hijo2]) s8); [| |done].
    + apply list.NoDup_app. split_and!; [done| |].
      * intros r Hr Hin. rewrite list.Forall_forall in Hlive.
        specialize (Hlive r Hr).
        apply elem_of_cons in Hin as [->|Hin]; [lia|].
        apply list_elem_of_singleton in Hin as ->. lia.
      * apply list.NoDup_cons. split; [by intros ->%list_elem_of_singleton|].
        apply NoDup_singleton.
    + apply Forall_app. split.
      * eapply Forall_impl; [|exact Hlive]. intros r Hr. cbn beta in *. lia.
      * repeat constructor; lia.
Qed.

(** X14. The population a generation step builds never holds the same list
    object at two places, and all its objects are live: mutating one
    candidate in place cannot change another.  The property carries over a
    whole run that starts from a population without shared objects. *)
Theorem poblacion_sin_alias (preferencias : list (list Z)) (tamanos : list Z) :
  (∀ poblacion nueva fitness s s',
     generacion preferencias tamanos poblacion s = Ok (nueva, fitness) s' →
     NoDup nueva ∧ Forall (λ r, is_Some (heap s' !! r)) nueva)
  ∧ (∀ g poblacion final fitness fitness' s s',
       NoDup poblacion →
       evolucionar preferencias tamanos g poblacion fitness s
       = Ok (final, fitness') s' →
       NoDup final).
Proof.
  assert (Hgen : ∀ poblacion nueva fitness s s',
    generacion preferencias tamanos poblacion s = Ok (nueva, fitness) s' →
    NoDup nueva ∧ Forall (λ r, is_Some (heap s' !! r)) nueva).
  { intros poblacion nueva fitness s s' [_ H]%generacion_Ok.
    apply reproducir_sin_alias in H as [Hnd Hlive]; [|constructor..].
    split; [done|]. eapply Forall_impl; [|exact Hlive].
    intros r Hr. by apply lookup_lt_is_Some_2. }
  split; [exact Hgen|].
  intros g. induction g as [|g IH]; intros poblacion final fitness fitness' s s' Hnd H.
  - cbn [evolucionar] in H. by apply ret_Ok in H as [[= <- _] _].
  - cbn [evolucionar] in H. apply bind_Ok in H as ([nueva fit] & s1 & Hg & H).
    apply Hgen in Hg as [Hnd' _]. by apply (IH nueva final (Some fit) fitness' s1 s').
Qed.

Lemma poblacion_sin_alias_witness :
  ∃ final fitness' s',
    evolucionar preferencias_ej tamanos_ej 2 [0; 1; 2] None
      (State (replicate 3 (seq 0 6))
             (paso_cruzado ++ paso_quieto ++ paso_mutado ++ paso_quieto))
    = Ok (final, fitness') s'
    ∧ NoDup final.
Proof.
  eexists _, _, _. split; [vm_compute; reflexivity|].
  refine (proj2 (poblacion_sin_alias preferencias_ej tamanos_ej) 2 [0; 1; 2] _ None _
    (State (replicate 3 (seq 0 6))
           (paso_cruzado ++ paso_quieto ++ paso_mutado ++ paso_quieto)) _ _ _).
  - compute_done.
  - vm_compute. reflexivity.
Defined.

(** ** A tournament over the whole population *)

Lemma torneo_completo (n : nat) (torneo : list nat) (x : nat) :
  NoDup torneo → length torneo = n → Forall (λ y, y < n) torneo →
  x < n → x ∈ torneo.
Proof.
  intros Hnd Hlen Hall Hx.
  assert (Hperm : torneo ≡ₚ seq 0 n).
  { apply NoDup_Permutation_bis.
    - by apply NoDup_ListNoDup.
    - rewrite length_seq. lia.
    - intros y Hy. apply list_elem_of_In in Hy. apply list_elem_of_In, elem_of_seq.
      rewrite list.Forall_forall in Hall. specialize (Hall y Hy). lia. }
  rewrite Hperm. apply elem_of_seq. lia.
Qed.

Lemma min_key_minimo (fitness : list Q) (torneo : list nat) (g : nat) (s s' : state) :
  min_key torneo (λ x, fitness !! x) s = Ok g s' →
  Forall (λ x, x < length fitness) torneo → gana fitness torneo g.
Proof.
  intros H Hall. destruct torneo as [|x l]; [done|].
  destruct (min_key_gana fitness (x :: l) s) as (g' & Hrun & Hg); [done|done|].
  rewrite Hrun in H. by injection H as <- _.
Qed.


